(** * gt_pro: the optimized-DB builder, the index store and the kmer-lookup
    scanner of [src/gt_pro.cpp], embedded as Rocq functions.

    Unsigned machine integers are [Z] with their wrap-around written out,
    C arrays and [std::vector]s are lists read with [!!], the two
    [unordered_map]s are [gmap]s, and everything that can stop the process
    ([assert], [exit], a read outside an array) is a value of [res]. *)

From Stdlib Require Import ZArith Lia List.
From stdpp Require Import base option list gmap strings sorting pretty.
Local Open Scope Z_scope.

(** ** Outcomes *)

(** The ways a run of the program stops early. *)
Inductive failure : Type :=
| AssertFailed (what : string)   (* assert(...) is false: abort() *)
| Exit (code : Z) (what : string) (* exit(code) after a message *)
| MemFault                        (* access outside an array or a mapping: undefined behaviour *)
| IntOverflow.                    (* overflow of a signed int: undefined behaviour *)

Inductive res (A : Type) : Type :=
| Ok (a : A)
| Err (f : failure).
Arguments Ok {A} a.
Arguments Err {A} f.

#[global] Instance res_ret : MRet res := fun A a => Ok a.
#[global] Instance res_bind : MBind res :=
  fun A B k m => match m with Ok a => k a | Err f => Err f end.

Definition assert (b : bool) (what : string) : res unit :=
  if b then Ok tt else Err (AssertFailed what).

(** Reading a cell of an array: outside the array nothing is defined. *)
Definition read {A} (l : list A) (i : Z) : res A :=
  if i <? 0 then Err MemFault
  else match l !! Z.to_nat i with
       | Some a => Ok a
       | None => Err MemFault
       end.

Definition is_ok {A} (r : res A) : bool :=
  match r with Ok _ => true | Err _ => false end.

(** ** Machine words *)

Definition wrap64 (x : Z) : Z := x mod 2 ^ 64.
Definition wrap32 (x : Z) : Z := x mod 2 ^ 32.
(** [x << n] on [uint64_t] *)
Definition shl64 (x n : Z) : Z := wrap64 (Z.shiftl x n).
(** [x << n] on [uint32_t] *)
Definition shl32 (x n : Z) : Z := wrap32 (Z.shiftl x n).

(** ** Constants (gt_pro.cpp, lines 39-70) *)

Definition K : Z := 31.
Definition BITS_PER_BASE : Z := 2.
Definition K2 : Z := BITS_PER_BASE * K.
Definition LSB : Z := 1.
Definition BIT_MASK : Z := shl64 LSB (K * BITS_PER_BASE) - LSB.
Definition START_BITS : Z := 48.
Definition LEN_BITS : Z := 64 - START_BITS.
Definition MAX_START : Z := shl64 LSB START_BITS - LSB.
Definition MAX_LEN : Z := shl64 LSB LEN_BITS - LSB.
Definition MAX_MMAP_GB : Z := 64 * 1024.
Definition MAX_END : Z := wrap64 (MAX_MMAP_GB * shl64 LSB 30) / 8.

(** element 0, 1: the two halves of the sequence around the SNP;
    element 2: the SNP coordinate. *)
Definition SNPRepr : Type := (Z * Z * Z)%type.
Definition get0 (r : SNPRepr) : Z := r.1.1.
Definition get1 (r : SNPRepr) : Z := r.1.2.
Definition get2 (r : SNPRepr) : Z := r.2.

(** ** Sequence codec *)

(** A character is the value 0..255 of its byte. *)
Definition chr (s : string) : Z :=
  match s with
  | String a _ => Z.of_N (Ascii.N_of_ascii a)
  | EmptyString => 0
  end.

Fixpoint bytes (s : string) : list Z :=
  match s with
  | EmptyString => []
  | String a s' => Z.of_N (Ascii.N_of_ascii a) :: bytes s'
  end.

(** The table [code_dict.data]: 256 entries, 0xff everywhere but at the
    eight letters. *)
Definition code_dict_entry (i : Z) : Z :=
  if (i =? chr "A") || (i =? chr "a") then 0
  else if (i =? chr "C") || (i =? chr "c") then 1
  else if (i =? chr "G") || (i =? chr "g") then 2
  else if (i =? chr "T") || (i =? chr "t") then 3
  else 255.

(** [code_dict.data[*buf]] with [buf] a [const char*]: [char] is signed
    where the program is built (Linux, x86-64), so a byte above 127 indexes
    before the table. *)
Definition code_dict (c : Z) : res Z :=
  if (0 <=? c) && (c <? 128) then Ok (code_dict_entry c) else Err MemFault.

(** [seq_encode<int_type, len>(buf)], lines 100-110.  The loop counter
    [bitpos] is compared with [len] itself, so [len] counts bits: the loop
    reads one character for every second value below [len].  [buf] is the
    rest of the array from the pointer on. *)
Fixpoint seq_encode_from (len bitpos : Z) (buf : list Z) (seq_code : Z) : res Z :=
  if bitpos <? len then
    match buf with
    | [] => Err MemFault
    | c :: buf' =>
        b_code ← code_dict c;
        _ ← assert (Z.land b_code 252 =? 0) "(b_code & 0xfc) == 0";
        seq_encode_from len (bitpos + BITS_PER_BASE) buf'
          (Z.lor seq_code (shl64 b_code bitpos))
    end
  else Ok seq_code.

Definition seq_encode (len : Z) (buf : list Z) : res Z :=
  seq_encode_from len 0 buf 0.

(** [buf + n]: what is left of the array from cell [n] on.  A pointer
    before the array has nothing behind it that a read could use. *)
Definition from {A} (buf : list A) (n : Z) : list A :=
  if n <? 0 then [] else drop (Z.to_nat n) buf.


(** ** Command line (main, lines 459-546) *)

(** One option as [getopt] hands it over, with the argument already run
    through [stoi] where the code does so. *)
Inductive flag : Type :=
| Flag_d (path : string)
| Flag_t (n : Z)
| Flag_o (prefix : string)
| Flag_l (n : Z)
| Flag_m (n : Z)
| Flag_p
| Flag_h.

Record Options : Type := mkOptions {
  dbflag : bool;
  db_path : string;
  oname : string;
  L2 : Z;
  M3 : Z;
  n_threads : Z;
  preload : bool;
}.

(** The values of the locals before the option loop. *)
Definition default_options : Options :=
  {| dbflag := false; db_path := ""; oname := "./out";
     L2 := 29; M3 := 36; n_threads := 1; preload := false |}.

(** One turn of the [switch] of the option loop. *)
Definition apply_flag (o : Options) (f : flag) : res Options :=
  match f with
  | Flag_d p => Ok (mkOptions true p (oname o) (L2 o) (M3 o) (n_threads o) (preload o))
  | Flag_t n => Ok (mkOptions (dbflag o) (db_path o) (oname o) (L2 o) (M3 o) n (preload o))
  | Flag_o s => Ok (mkOptions (dbflag o) (db_path o) s (L2 o) (M3 o) (n_threads o) (preload o))
  | Flag_l n => Ok (mkOptions (dbflag o) (db_path o) (oname o) n (M3 o) (n_threads o) (preload o))
  | Flag_m n => Ok (mkOptions (dbflag o) (db_path o) (oname o) (L2 o) n (n_threads o) (preload o))
  | Flag_p => Ok (mkOptions (dbflag o) (db_path o) (oname o) (L2 o) (M3 o) (n_threads o) true)
  | Flag_h => Err (Exit 1 "usage")
  end.

Fixpoint parse_flags (o : Options) (fs : list flag) : res Options :=
  match fs with
  | [] => Ok o
  | f :: fs' => o' ← apply_flag o f; parse_flags o' fs'
  end.

(** The assertions on the parameters, lines 516-527; the result is [M2]. *)
Definition check_params (o : Options) : res Z :=
  let M2 := K2 - L2 o in
  _ ← assert (0 <? L2 o) "L2 > 0";
  _ ← assert (L2 o <=? 32) "L2 <= 32";
  _ ← assert (0 <? M2) "M2 > 0";
  _ ← assert (M2 <? 64) "M2 < 64";
  _ ← assert (0 <? M3 o) "M3 > 0";
  _ ← assert (M3 o <? 64) "M3 < 64";
  _ ← assert (L2 o =? 30) "Sorry, for now only -l 30 is supported.";
  _ ← assert (M2 =? 32) "M2 == 32";
  Ok M2.

(** main up to the point where the DB is loaded, lines 459-546: the option
    loop, the parameter assertions, then the two usage checks.  [inputs]
    are the arguments left after the options. *)
Definition startup (fs : list flag) (inputs : list string) : res (Options * Z) :=
  o ← parse_flags default_options fs;
  M2 ← check_params o;
  if negb (dbflag o) then Err (Exit 1 "missing argument: -d <sckmerdb_path: string>")
  else if bool_decide (inputs = []) then Err (Exit 1 "missing argument: input (>1)")
  else Ok (o, M2).

(** The template instances of [kmer_lookup_work] listed in [kmer_lookup],
    lines 295-330, as pairs [(M2, M3)] in the order they are tried. *)
Definition instances : list (Z * Z) :=
  M2 ← [32; 33; 34; 35; 36]; M3 ← [30; 32; 34; 35; 36; 37]; [(M2, M3)].

(** The guard that opens [kmer_lookup_work<M2, M3>], lines 120-122. *)
Definition instance_runs (inst : Z * Z) (aM2 aM3 : Z) : bool :=
  negb (negb (aM2 =? inst.1) || negb (aM3 =? inst.2)).

(** ** Index store (struct DBIndex, lines 339-446) *)

(** What the template parameter [ElementType] contributes: the size of an
    element and the value [resize] fills new cells with. *)
Record ElementType (E : Type) : Type := mkElementType {
  sizeof : Z;
  zero : E;
}.
Arguments sizeof {E} _.
Arguments zero {E} _.

Definition SNPRepr_t : ElementType SNPRepr := {| sizeof := 24; zero := (0, 0, 0) |}.
Definition uint32_t : ElementType Z := {| sizeof := 4; zero := 0 |}.
Definition uint64_t : ElementType Z := {| sizeof := 8; zero := 0 |}.

(** What the operating system answers for the file behind a store. *)
Record BackingFile (E : Type) : Type := mkBackingFile {
  bf_stat : option Z;        (* st_size, None when stat() returns -1 *)
  bf_fd : Z;                 (* what open() returns; fopen() fails when it is -1 *)
  bf_mmap : bool;            (* mmap() does not return MAP_FAILED *)
  bf_data : list E;          (* the elements stored in the file *)
  bf_fread : option nat;     (* Some k: an fread stops early, after k elements *)
}.
Arguments bf_stat {E} _.
Arguments bf_fd {E} _.
Arguments bf_mmap {E} _.
Arguments bf_data {E} _.
Arguments bf_fread {E} _.

Record DBIndex (E : Type) : Type := mkDBIndex {
  loaded_or_mmapped : bool;
  elements : list E;
  mmapped_data : option (list E);
  expected_element_count : Z;
  fd : Z;
  filesize : Z;
}.
Arguments mkDBIndex {E}.
Arguments loaded_or_mmapped {E} _.
Arguments elements {E} _.
Arguments mmapped_data {E} _.
Arguments expected_element_count {E} _.
Arguments fd {E} _.
Arguments filesize {E} _.

(** The constructor; [expected_element_count] defaults to 0. *)
Definition DBIndex_new {E} (expected_element_count : Z) : DBIndex E :=
  mkDBIndex false [] None expected_element_count (-1) 0.

Definition get_fsize {E} (bf : BackingFile E) : Z :=
  match bf_stat bf with
  | None => 0
  | Some st_size => st_size
  end.

Definition address {E} (ix : DBIndex E) : res (list E) :=
  match mmapped_data ix with
  | Some data => Ok data
  | None =>
      _ ← assert (0 <? Z.of_nat (length (elements ix))) "elements.size() > 0";
      Ok (elements ix)
  end.

(** [fread] into the buffer at [address()]: the first [n] cells are
    overwritten with the first [n] elements of the file. *)
Definition fread_into {E} (data buf : list E) (n : nat) : list E :=
  take n data ++ drop n buf.

Definition load {E} (T : ElementType E) (bf : BackingFile E) (ix : DBIndex E)
  : res (DBIndex E) :=
  if bf_fd bf =? -1 then Ok ix
  else
    let expected := Z.to_nat (expected_element_count ix) in
    let ix1 := mkDBIndex (loaded_or_mmapped ix) (resize expected (zero T) (elements ix))
                 (mmapped_data ix) (expected_element_count ix) (fd ix) (filesize ix) in
    _ ← address ix1;
    let available := match bf_fread bf with
                     | None => length (bf_data bf)
                     | Some k => (k `min` length (bf_data bf))%nat
                     end in
    let loaded_element_count := (expected `min` available)%nat in
    let buf := fread_into (bf_data bf) (elements ix1) loaded_element_count in
    Ok (mkDBIndex (bool_decide (loaded_element_count = expected) || loaded_or_mmapped ix1)
          buf (mmapped_data ix1) (expected_element_count ix1) (fd ix1) (filesize ix1)).

Definition MMAP {E} (bf : BackingFile E) (ix : DBIndex E) : DBIndex E :=
  let ix1 := mkDBIndex (loaded_or_mmapped ix) (elements ix) (mmapped_data ix)
               (expected_element_count ix) (bf_fd bf) (filesize ix) in
  if bf_fd bf =? -1 then ix1
  else if bf_mmap bf then
    mkDBIndex true (elements ix1) (Some (bf_data bf)) (expected_element_count ix1)
      (fd ix1) (filesize ix1)
  else ix1.

(** [mmap_or_load(preload)], lines 368-390.  The result is the returned
    flag (true: the index has to be recomputed) and the store afterwards. *)
Definition mmap_or_load {E} (T : ElementType E) (bf : BackingFile E) (preload : bool)
    (ix : DBIndex E) : res (bool * DBIndex E) :=
  _ ← assert (negb (loaded_or_mmapped ix)) "!(loaded_or_mmapped)";
  let ix := mkDBIndex (loaded_or_mmapped ix) (elements ix) (mmapped_data ix)
              (expected_element_count ix) (fd ix) (get_fsize bf) in
  ix ← (if negb (filesize ix =? 0) then
          let expected :=
            if expected_element_count ix =? 0 then filesize ix / sizeof T
            else expected_element_count ix in
          let ix := mkDBIndex (loaded_or_mmapped ix) (elements ix) (mmapped_data ix)
                      expected (fd ix) (filesize ix) in
          _ ← assert (filesize ix =? wrap64 (expected_element_count ix * sizeof T))
                "filesize == expected_element_count * sizeof(ElementType)";
          if preload then load T bf ix else Ok (MMAP bf ix)
        else Ok ix);
  if loaded_or_mmapped ix then Ok (false, ix)
  else
    Ok (true,
        mkDBIndex (loaded_or_mmapped ix)
          (resize (Z.to_nat (expected_element_count ix)) (zero T) (elements ix))
          (mmapped_data ix) (expected_element_count ix) (fd ix) (filesize ix)).

(** Whether mapping (or, with [preload], reading) the file into a store
    that expects [n] elements goes through: [open]/[fopen] succeed, and then
    [mmap] succeeds, or [fread] delivers all [n] elements. *)
Definition io_succeeds {E} (bf : BackingFile E) (preload : bool) (n : Z) : bool :=
  negb (bf_fd bf =? -1) &&
  (if preload
   then bool_decide (Z.to_nat n ≤ match bf_fread bf with
                                  | None => length (bf_data bf)
                                  | Some k => k `min` length (bf_data bf)
                                  end)%nat
   else bf_mmap bf).

(** ** Index store: saving and closing (lines 392-411) *)



(** The file with the given elements, as a later [mmap_or_load] finds it. *)
Definition file_holding {E} (T : ElementType E) (data : list E) (fd : Z)
    (can_mmap : bool) (fread_stops : option nat) : BackingFile E :=
  mkBackingFile E (Some (Z.of_nat (length data) * sizeof T)) fd can_mmap data fread_stops.

(** [~DBIndex()], lines 403-411; [rc] is what [munmap] returns. *)
Definition destroy {E} (rc : Z) (ix : DBIndex E) : res unit :=
  if negb (fd ix =? -1) then
    _ ← assert (bool_decide (is_Some (mmapped_data ix))) "mmapped_data";
    _ ← assert (loaded_or_mmapped ix) "loaded_or_mmapped";
    assert (rc =? 0) "rc == 0"
  else Ok tt.

(** ** The two direct-addressed tables *)

(** [mmer_bloom] and [lmer_index] are arrays of [2^M3 / 64] and [2^L2]
    words, far too long for a list: a table is its length and the cells
    that were written, every other cell holding the zero it was resized
    with. *)
Record Table : Type := mkTable {
  t_len : Z;
  t_cells : gmap Z Z;
}.

Definition new_table (len : Z) : Table := mkTable len ∅.

Definition t_read (t : Table) (i : Z) : res Z :=
  if (0 <=? i) && (i <? t_len t) then Ok (default 0 (t_cells t !! i))
  else Err MemFault.

Definition t_write (t : Table) (i v : Z) : res Table :=
  if (0 <=? i) && (i <? t_len t) then Ok (mkTable (t_len t) (<[i := v]> (t_cells t)))
  else Err MemFault.

(** ** DB optimizer (main, lines 599-754) *)

(** The source DB: one pair [(snp_with_offset, kmer)] for every 16 bytes,
    i.e. [db_data[end]] and [db_data[end + 1]] for every even [end]. *)
Abbreviation DB := (list (Z * Z)).

Record Params : Type := mkParams {
  p_L2 : Z;
  p_M2 : Z;
  p_M3 : Z;
  recompute_mmer_bloom : bool;
  recompute_lmer_index : bool;
  recompute_kmer_index_and_snps : bool;
}.

Definition LMER_MASK (P : Params) : Z := shl64 LSB (p_L2 P) - LSB.
Definition MAX_BLOOM (P : Params) : Z := shl64 LSB (p_M3 P) - LSB.

(** The variables of main that the two passes read and write. *)
Record Build : Type := mkBuild {
  snps : list SNPRepr;
  kmer_index : list Z;
  mmer_bloom : Table;
  lmer_index : Table;
  snps_map : gmap Z Z;
  snps_known_bits : list (Z * Z);
  last_lmer : Z;
  start : Z;
  lmer_count : Z;
}.

(** The loops run [end] up to this constant, not up to [db_filesize / 8]
    (lines 619 and 740). *)
Definition LOOP_BOUND : Z := 20 * 1000 * 1000.

(** Lines 622-625. *)
Definition build_bloom (P : Params) (kmer : Z) (st : Build) : res Build :=
  let bloom_index := Z.land kmer (MAX_BLOOM P) in
  w ← t_read (mmer_bloom st) (bloom_index / 64);
  t ← t_write (mmer_bloom st) (bloom_index / 64)
        (Z.lor w (shl64 1 (bloom_index mod 64)));
  Ok (mkBuild (snps st) (kmer_index st) t (lmer_index st) (snps_map st)
        (snps_known_bits st) (last_lmer st) (start st) (lmer_count st)).

(** [(snp_id << 5) || offset], line 642: a [bool], pushed as 0 or 1. *)
Definition kmer_repr (snp_id offset : Z) : Z :=
  if negb (shl32 snp_id 5 =? 0) || negb (offset =? 0) then 1 else 0.

(** Lines 627-722. *)
Definition build_snp (kmer snp_with_offset : Z) (st : Build) : res Build :=
  let snp := Z.shiftr snp_with_offset 8 in
  let offset := Z.land snp_with_offset 255 in
  let '(snp_id, snps_map1, snps1, known1) :=
    match snps_map st !! snp with
    | None =>
        let snp_id := wrap32 (Z.of_nat (size (snps_map st))) in
        (snp_id, <[snp := snp_id]> (snps_map st),
         snps st ++ [(0, 0, snp)], snps_known_bits st ++ [(0, 0)])
    | Some snp_id => (snp_id, snps_map st, snps st, snps_known_bits st)
    end in
  _ ← assert ((0 <=? offset) && (offset <? K) && (offset <=? 31))
        "0 <= offset && offset < K && offset <= 31";
  _ ← assert (snp_id <? Z.shiftl 1 27) "Too many SNPs in database.";
  let kmer_index1 := kmer_index st ++ [kmer_repr snp_id offset] in
  snp_repr ← read snps1 snp_id;
  snp_known_bits_mask ← read known1 snp_id;
  let low_bits := shl64 kmer (62 - offset * BITS_PER_BASE) in
  let high_bits := Z.shiftr kmer (offset * BITS_PER_BASE) in
  _ ← assert (Z.shiftr low_bits 62 =? Z.land high_bits 3)
        "SNP position differs in two supposedly redundant representations.";
  let snp_mask_0 := snp_known_bits_mask.1 in
  let snp_mask_1 := snp_known_bits_mask.2 in
  let FULL_KMER := shl64 LSB K2 - LSB in
  let kmer_mask_0 := shl64 FULL_KMER (62 - offset * BITS_PER_BASE) in
  let kmer_mask_1 := Z.shiftr FULL_KMER (offset * BITS_PER_BASE) in
  let mask_0 := Z.land snp_mask_0 kmer_mask_0 in
  let mask_1 := Z.land snp_mask_1 kmer_mask_1 in
  _ ← assert (Z.land mask_0 (get0 snp_repr) =? Z.land mask_0 low_bits)
        "SNP above covered by conflicting kmers.";
  _ ← assert (Z.land mask_1 (get1 snp_repr) =? Z.land mask_1 high_bits)
        "SNP covered by conflicting kmers";
  let snp_repr' : SNPRepr :=
    (Z.lor (get0 snp_repr) low_bits, Z.lor (get1 snp_repr) high_bits, get2 snp_repr) in
  let known' := (Z.lor snp_mask_0 kmer_mask_0, Z.lor snp_mask_1 kmer_mask_1) in
  Ok (mkBuild (<[Z.to_nat snp_id := snp_repr']> snps1) kmer_index1
        (mmer_bloom st) (lmer_index st) snps_map1
        (<[Z.to_nat snp_id := known']> known1)
        (last_lmer st) (start st) (lmer_count st)).

(** Lines 724-736. *)
Definition build_lmer (P : Params) (end_ lmer : Z) (st : Build) : res Build :=
  let '(start1, lmer_count1) :=
    if (0 <? end_) && negb (lmer =? last_lmer st)
    then (end_ / 2, wrap64 (lmer_count st + 1))
    else (start st, lmer_count st) in
  _ ← assert (start1 <=? MAX_START) "start <= MAX_START";
  let len := wrap64 (end_ / 2 - start1 + 1) in
  _ ← assert (len <? MAX_LEN) "len < MAX_LEN";
  _ ← assert (lmer <=? LMER_MASK P) "lmer <= LMER_MASK";
  t ← (if recompute_lmer_index P
       then t_write (lmer_index st) lmer (Z.lor (shl64 start1 LEN_BITS) len)
       else Ok (lmer_index st));
  Ok (mkBuild (snps st) (kmer_index st) (mmer_bloom st) t (snps_map st)
        (snps_known_bits st) lmer start1 lmer_count1).

(** The body of the first loop, lines 620-736, at the record
    [(db_data[end], db_data[end + 1])]. *)
Definition build_body (P : Params) (end_ : Z) (record : Z * Z) (st : Build) : res Build :=
  let kmer := record.2 in
  let lmer := Z.shiftr kmer (p_M2 P) in
  st ← (if recompute_mmer_bloom P then build_bloom P kmer st else Ok st);
  st ← (if recompute_kmer_index_and_snps P then build_snp kmer record.1 st else Ok st);
  build_lmer P end_ lmer st.

(** [for (end = 0; end < 20*1000*1000; end += 2)], line 619.  [db] is what
    the mapping holds from [db_data + end] on; a turn that finds nothing
    there reads past the end of the mapping. *)
Fixpoint build_loop (P : Params) (db : DB) (end_ : Z) (st : Build) : res Build :=
  if end_ <? LOOP_BOUND then
    match db with
    | [] => Err MemFault
    | record :: db' =>
        st' ← build_body P end_ record st;
        build_loop P db' (end_ + 2) st'
    end
  else Ok st.

(** The kmer that an entry of [kmer_index] stands for: lines 748-751, and
    again lines 229-231 in the scanner. *)
Definition db_kmer_of (snp_repr : SNPRepr) (offset : Z) : Z :=
  let low_bits := Z.shiftr (get0 snp_repr) (62 - offset * BITS_PER_BASE) in
  let high_bits := shl64 (get1 snp_repr) (offset * BITS_PER_BASE) in
  Z.land (Z.lor high_bits low_bits) BIT_MASK.

(** The body of the validation loop, lines 741-752. *)
Definition validate_body (end_ : Z) (record : Z * Z) (st : Build) : res unit :=
  let db_kmer := record.2 in
  kmi ← read (kmer_index st) (end_ / 2);
  let offset := Z.land kmi 31 in
  let snp_id := Z.shiftr kmi 5 in
  _ ← assert ((0 <=? offset) && (offset <? 31) && (offset <? K))
        "0 <= offset && offset < 31 && offset < K";
  _ ← assert ((0 <=? snp_id) && (snp_id <=? Z.of_nat (length (snps st))))
        "0 <= snp_id && snp_id <= snps.size()";
  snp_repr ← read (snps st) snp_id;
  _ ← assert (Z.shiftr (get0 snp_repr) 62 =? Z.land (get1 snp_repr) 3)
        "SNP position differs in two supposedly redundant representations.";
  let kmer := db_kmer_of snp_repr offset in
  assert (kmer =? db_kmer) "kmer == db_kmer".

Fixpoint validate_loop (db : DB) (end_ : Z) (st : Build) : res unit :=
  if end_ <? LOOP_BOUND then
    match db with
    | [] => Err MemFault
    | record :: db' =>
        _ ← validate_body end_ record st;
        validate_loop db' (end_ + 2) st
    end
  else Ok tt.

(** Lines 602-754: the state main enters the block with, and the block.
    [snps0] and [kmer_index0] are the element vectors of the two stores,
    [bloom0] and [lmer0] the tables behind the two pointers. *)
Definition build_init (snps0 : list SNPRepr) (kmer_index0 : list Z)
    (bloom0 lmer0 : Table) : Build :=
  mkBuild snps0 kmer_index0 bloom0 lmer0 ∅ [] 0 0 (wrap64 (-1)).

Definition optimize (P : Params) (db : DB) (st : Build) : res Build :=
  if recompute_mmer_bloom P || recompute_lmer_index P || recompute_kmer_index_and_snps P
  then
    let st := mkBuild (snps st) (kmer_index st) (mmer_bloom st) (lmer_index st) ∅ []
                (last_lmer st) (start st) (if bool_decide (db = []) then 0 else 1) in
    st ← build_loop P db 0 st;
    _ ← assert (bool_decide (length (snps st) = size (snps_map st)))
          "snps.size() == snps_map.size()";
    _ ← validate_loop db 0 st;
    Ok st
  else Ok st.

(** ** Scanner (kmer_lookup_work, lines 117-289) *)

Definition MAX_TOKEN_LENGTH : Z := 500.
Definition MIN_TOKEN_LENGTH : Z := 31.
Definition INT_MAX : Z := 2 ^ 31 - 1.
Definition NEWLINE : Z := 10.

(** The locals of [kmer_lookup_work] that live across characters. *)
Record Scan : Type := mkScan {
  n_lines : Z;
  c : Z;
  token_length : Z;
  seq_buf : list Z;
  kmer_matches : list Z;
  footprint : gmap Z Z;
}.

Definition scan_init : Scan :=
  mkScan 0 0 0 (replicate (Z.to_nat MAX_TOKEN_LENGTH) 0) [] ∅.

(** What [read(fd, window, step_size)] returns, call after call; after the
    last entry it returns 0. *)
Inductive read_result : Type :=
| Bytes (window : list Z)
| ReadFailed.

Section kmer_lookup_work.

(** Template parameters and the four borrowed indices. *)
Variables M2 M3 : Z.
Variables lmer_index mmer_bloom : Table.
Variable kmers_index : list Z.
Variable snps : list SNPRepr.

Definition scan_MAX_BLOOM : Z := shl64 LSB M3 - LSB.
Definition XX : Z := (M3 + 1) / 2.

(** Lines 233-236. *)
Definition record_hit (snp_id : Z) (st : Scan) : Scan :=
  match footprint st !! snp_id with
  | None =>
      mkScan (n_lines st) (c st) (token_length st) (seq_buf st)
        (kmer_matches st ++ [snp_id]) (<[snp_id := 1]> (footprint st))
  | Some _ => st
  end.

(** [for (z = start; z < end; ++z)], lines 224-240; [cells] is
    [kmers_index] from cell [z] on. *)
Fixpoint probe (cells : list Z) (z end_ kmer : Z) (st : Scan) : res Scan :=
  if z <? end_ then
    match cells with
    | [] => Err MemFault
    | kmi :: cells' =>
        let offset := Z.land kmi 31 in
        let snp_id := Z.shiftr kmi 5 in
        snps_repr ← read snps snp_id;
        let db_kmer := db_kmer_of snps_repr offset in
        if kmer =? db_kmer then probe cells' (z + 1) end_ kmer (record_hit snp_id st)
        else if kmer <? db_kmer then Ok st
        else probe cells' (z + 1) end_ kmer st
    end
  else Ok st.

(** Lines 214-215: the bits [mpres] of the stage-1 lookup at window [j]. *)
Definition bloom_lookup (buf : list Z) (j : Z) : res Z :=
  code ← seq_encode XX (from buf (j + K - XX));
  let mmer_pres := Z.land code scan_MAX_BLOOM in
  w ← t_read mmer_bloom (mmer_pres / 64);
  Ok (Z.shiftr w (mmer_pres mod 64)).

(** The body of the window loop, lines 214-241. *)
Definition lookup_window (j : Z) (st : Scan) : res Scan :=
  mpres ← bloom_lookup (seq_buf st) j;
  if Z.land mpres 1 =? 1 then
    kmer ← seq_encode K (from (seq_buf st) j);
    let lmer := wrap32 (Z.shiftr kmer M2) in
    range ← t_read lmer_index lmer;
    let start := Z.shiftr range LEN_BITS in
    let end_ := MAX_END `min` wrap64 (start + Z.land range MAX_LEN) in
    probe (from kmers_index start) start end_ kmer st
  else Ok st.

(** [for (j = 0; j <= token_length - K; ++j)], line 212, over the list of
    the values [j] takes. *)
Fixpoint lookup_windows (js : list Z) (st : Scan) : res Scan :=
  match js with
  | [] => Ok st
  | j :: js' => st' ← lookup_window j st; lookup_windows js' st'
  end.

Definition process_token (st : Scan) : res Scan :=
  lookup_windows (seqZ 0 (token_length st - K + 1)) st.

(** The body of the character loop, lines 171-251, at [window[i] = ch]. *)
Definition scan_char (st : Scan) (ch : Z) : res Scan :=
  let n_lines1 := if c st =? NEWLINE then wrap64 (n_lines st + 1) else n_lines st in
  if negb (n_lines1 mod 4 =? 1) then
    Ok (mkScan n_lines1 ch (token_length st) (seq_buf st) (kmer_matches st) (footprint st))
  else
    let at_token_end := (ch =? NEWLINE) || (ch =? chr "N") || (ch =? chr "n") in
    if negb at_token_end then
      let seq_buf1 :=
        if token_length st <? MAX_TOKEN_LENGTH
        then <[Z.to_nat (token_length st) := ch]> (seq_buf st)
        else seq_buf st in
      if token_length st =? INT_MAX then Err IntOverflow
      else Ok (mkScan n_lines1 ch (token_length st + 1) seq_buf1
                 (kmer_matches st) (footprint st))
    else
      let st1 := mkScan n_lines1 ch (token_length st) (seq_buf st)
                   (kmer_matches st) (footprint st) in
      st2 ← (if (MIN_TOKEN_LENGTH <=? token_length st1)
                && (token_length st1 <=? MAX_TOKEN_LENGTH)
             then process_token st1 else Ok st1);
      let footprint1 := if ch =? NEWLINE then ∅ else footprint st2 in
      Ok (mkScan (n_lines st2) (c st2) 0 (seq_buf st2) (kmer_matches st2) footprint1).

(** [for (i = 0; i < bytes_read; ++i)], line 169. *)
Fixpoint scan_chars (window : list Z) (st : Scan) : res Scan :=
  match window with
  | [] => Ok st
  | ch :: window' => st' ← scan_char st ch; scan_chars window' st'
  end.

(** [while (true)], lines 158-253. *)
Fixpoint read_loop (reads : list read_result) (st : Scan) : res Scan :=
  match reads with
  | [] => Ok st
  | ReadFailed :: _ => Err (Exit 1 "unknown fatal error, when read stdin input")
  | Bytes window :: reads' =>
      if bool_decide (window = []) then Ok st
      else st' ← scan_chars window st; read_loop reads' st'
  end.

(** [kmer_matches[i] = get<2>(snps[kmer_matches[i]])], lines 266-268. *)
Fixpoint to_coords (matches : list Z) : res (list Z) :=
  match matches with
  | [] => Ok []
  | snp_id :: matches' =>
      snp_repr ← read snps snp_id;
      coords ← to_coords matches';
      Ok (get2 snp_repr :: coords)
  end.

(** The loop of lines 274-282; a line of the output file is the pair
    [(cur_snp, cur_count)] written as [cur_snp '\t' cur_count '\n']. *)
Fixpoint emit_loop (its : list Z) (cur_snp cur_count : Z) : list (Z * Z) :=
  match its with
  | [] => []
  | it :: its' =>
      if negb (it =? cur_snp) then (cur_snp, cur_count) :: emit_loop its' it 1
      else emit_loop its' cur_snp (wrap64 (cur_count + 1))
  end.

(** Lines 263-283: the lines written to the output file. *)
Definition emit (matches : list Z) : res (list (Z * Z)) :=
  if bool_decide (length matches = 0%nat) then Ok []
  else
    coords ← to_coords matches;
    let sorted := merge_sort Z.le coords in
    cur_snp ← read sorted 0;
    Ok (emit_loop sorted cur_snp 0).

(** The template instance [kmer_lookup_work<M2, M3>]: [None] is the
    [return false] of an instance that is not the requested one, [Some]
    carries the lines of the output file of a run that returned true. *)
Definition kmer_lookup_work (aM2 aM3 : Z) (reads : list read_result)
  : res (option (list (Z * Z))) :=
  if negb (instance_runs (M2, M3) aM2 aM3) then Ok None
  else
    st ← read_loop reads scan_init;
    if negb (token_length st =? 0)
    then Err (Exit 1 "Error:  Truncated read sequence at end of file")
    else
      out ← emit (kmer_matches st);
      Ok (Some out).

End kmer_lookup_work.

(** [kmer_lookup], lines 292-332: the instances are tried in order, the
    first that runs ends the [||] chain. *)
Fixpoint kmer_lookup_chain (insts : list (Z * Z)) (lmer_index mmer_bloom : Table)
    (kmers_index : list Z) (snps : list SNPRepr) (M2 M3 : Z)
    (reads : list read_result) : res (option (list (Z * Z))) :=
  match insts with
  | [] => Ok None
  | inst :: insts' =>
      r ← kmer_lookup_work inst.1 inst.2 lmer_index mmer_bloom kmers_index snps M2 M3 reads;
      match r with
      | Some out => Ok (Some out)
      | None => kmer_lookup_chain insts' lmer_index mmer_bloom kmers_index snps M2 M3 reads
      end
  end.

Definition kmer_lookup (lmer_index mmer_bloom : Table) (kmers_index : list Z)
    (snps : list SNPRepr) (M2 M3 : Z) (reads : list read_result)
  : res (list (Z * Z)) :=
  r ← kmer_lookup_chain instances lmer_index mmer_bloom kmers_index snps M2 M3 reads;
  match r with
  | Some out => Ok out
  | None => Err (AssertFailed "See comment for supporrted values of L and M.")
  end.

(** The value of [match] in [kmer_lookup] when no instance is the requested
    one: whether some instance in the chain runs. *)
Definition supported (M2 M3 : Z) : bool :=
  existsb (fun inst => instance_runs inst M2 M3) instances.

(** The text of the output file. *)
Definition TAB : string := String (Ascii.ascii_of_nat 9) EmptyString.
Definition LF : string := String (Ascii.ascii_of_nat 10) EmptyString.

Fixpoint render (lines : list (Z * Z)) : string :=
  match lines with
  | [] => EmptyString
  | (cur_snp, cur_count) :: lines' =>
      pretty cur_snp +:+ TAB +:+ pretty cur_count +:+ LF +:+ render lines'
  end.

(** ** The codec of the earlier version (part_000, lines 90-140) *)

(** Writing a cell of an array. *)
Definition assign {A} (l : list A) (i : Z) (a : A) : res (list A) :=
  if (0 <=? i) && (i <? Z.of_nat (length l)) then Ok (<[Z.to_nat i := a]> l)
  else Err MemFault.

Module part_000.

(** [bit_encode], lines 90-98. *)
Definition bit_encode (c : Z) : res Z :=
  if (c =? chr "A") || (c =? chr "a") then Ok 0
  else if (c =? chr "C") || (c =? chr "c") then Ok 1
  else if (c =? chr "G") || (c =? chr "g") then Ok 2
  else if (c =? chr "T") || (c =? chr "t") then Ok 3
  else Err (AssertFailed "false").

(** [bit_decode], lines 100-108. *)
Definition bit_decode (bit_code : Z) : res Z :=
  if bit_code =? 0 then Ok (chr "A")
  else if bit_code =? 1 then Ok (chr "C")
  else if bit_code =? 2 then Ok (chr "G")
  else if bit_code =? 3 then Ok (chr "T")
  else Err (AssertFailed "false").

(** [code_dict[c] = bit_encode(c)] *)
Definition set_code (c : string) (code_dict : list Z) : res (list Z) :=
  b_code ← bit_encode (chr c);
  assign code_dict (chr c) b_code.

(** [make_code_dict], lines 110-119: eight cells of the array are written,
    the others keep what they held. *)
Definition make_code_dict (code_dict : list Z) : res (list Z) :=
  code_dict ← set_code "A" code_dict;
  code_dict ← set_code "a" code_dict;
  code_dict ← set_code "C" code_dict;
  code_dict ← set_code "c" code_dict;
  code_dict ← set_code "G" code_dict;
  code_dict ← set_code "g" code_dict;
  code_dict ← set_code "T" code_dict;
  set_code "t" code_dict.

(** [for (bitpos = (len - 1) * BITS_PER_BASE; bitpos >= 0; bitpos -=
    BITS_PER_BASE)], lines 125-128, with [int_type] 64 bits wide. *)
Fixpoint seq_encode_from (code_dict buf : list Z) (bitpos seq_code : Z) : res Z :=
  if 0 <=? bitpos then
    match buf with
    | [] => Err MemFault
    | c :: buf' =>
        b_code ← read code_dict c;
        seq_encode_from code_dict buf' (bitpos - BITS_PER_BASE)
          (Z.lor seq_code (shl64 b_code bitpos))
    end
  else Ok seq_code.

(** [seq_encode<uint64_t, len>(buf, code_dict)], lines 121-130. *)
Definition seq_encode (len : Z) (code_dict buf : list Z) : res Z :=
  seq_encode_from code_dict buf ((len - 1) * BITS_PER_BASE) 0.

Definition B_MASK : Z := Z.shiftl 1 BITS_PER_BASE - 1.

(** [for (i = 0; i < len - 1; ++i)], lines 135-138, over the values [i]
    takes; the result is what was written to [buf[0]], [buf[1]], ... *)
Fixpoint seq_decode_from (turns : list Z) (len seq_code : Z) : res (list Z) :=
  match turns with
  | [] => Ok []
  | i :: turns' =>
      let b_code := Z.land B_MASK (Z.shiftr seq_code (BITS_PER_BASE * (len - i - 2))) in
      ch ← bit_decode b_code;
      chars ← seq_decode_from turns' len seq_code;
      Ok (ch :: chars)
  end.

(** [seq_decode(buf, len, seq_code)], lines 132-140: the first [len] cells
    of [buf] afterwards.  With [len] below 1 the closing NUL is written
    before the buffer. *)
Definition seq_decode (len seq_code : Z) : res (list Z) :=
  chars ← seq_decode_from (seqZ 0 (len - 1)) len seq_code;
  if len <? 1 then Err MemFault else Ok (chars ++ [0]).

End part_000.

(** ** Vocabulary for the properties *)

(** The number of turns left when the counter stands at [end_]. *)
Definition turns_left (end_ : Z) : nat := Z.to_nat ((LOOP_BOUND - end_ + 1) / 2).

(** The line the next character belongs to: [n_lines] counts a newline only
    when the character after it is looked at. *)
Definition cur_line (st : Scan) : Z :=
  if c st =? NEWLINE then wrap64 (n_lines st + 1) else n_lines st.

(** Two states at the same place of the input. *)
Definition same_position (st st' : Scan) : Prop :=
  n_lines st' = n_lines st ∧ c st' = c st ∧
  token_length st' = token_length st ∧ seq_buf st' = seq_buf st.

(** [hits] is what the current read has added to the [base] it started
    from: no SNP twice, and the footprint holds exactly these SNPs. *)
Definition read_hits (base : list Z) (st : Scan) (hits : list Z) : Prop :=
  kmer_matches st = base ++ hits ∧ NoDup hits ∧
  ∀ snp_id, snp_id ∈ hits ↔ is_Some (footprint st !! snp_id).

(** What holds of a step that only records hits. *)
Definition only_hits (st st' : Scan) : Prop :=
  same_position st st' ∧
  ∀ base hits, read_hits base st hits → ∃ more, read_hits base st' (hits ++ more).

(** A character that ends a token (line 196). *)
Definition at_token_end (ch : Z) : bool :=
  (ch =? NEWLINE) || (ch =? chr "N") || (ch =? chr "n").

(** Either the scanner is inside a sequence line, or nothing of a read is
    pending: no token and an empty footprint. *)
Definition between_reads (st : Scan) : Prop :=
  (cur_line st mod 4 = 1 ∧ c st ≠ NEWLINE) ∨
  (footprint st = ∅ ∧ token_length st = 0).

(** The bytes the character loop gets to see before [read] returns 0 or
    fails. *)
Fixpoint consumed (reads : list read_result) : list Z :=
  match reads with
  | [] => []
  | ReadFailed :: _ => []
  | Bytes window :: reads' =>
      if bool_decide (window = []) then [] else window ++ consumed reads'
  end.

Fixpoint newlines (input : list Z) : nat :=
  match input with
  | [] => 0
  | ch :: input' => (if ch =? NEWLINE then 1 else 0) + newlines input'
  end.

(** ** Vocabulary for the codec *)

(** The eight letters [code_dict] knows. *)
Definition is_base (ch : Z) : bool := bool_decide (ch ∈ bytes "ACGTacgt").

(** The number of characters [seq_encode_from] reads when its counter
    stands at [bitpos]. *)
Definition chars_read (len bitpos : Z) : nat := Z.to_nat ((len - bitpos + 1) / 2).

(** Two-bit codes as digits in base 4, the first the lowest. *)
Fixpoint pack (codes : list Z) : Z :=
  match codes with
  | [] => 0
  | b_code :: codes' => b_code + 4 * pack codes'
  end.

(** How often a coordinate occurs among the hits. *)
Definition occurrences (x : Z) (l : list Z) : Z := Z.of_nat (count_occ Z.eq_dec l x).

(** ** Vocabulary for the optimizer's properties *)

(** The records a run of the loop visits when its counter starts at
    [end_]. *)
Definition visited (db : DB) (end_ : Z) : DB := take (turns_left end_) db.

(** The presence bit for the value [i] in a bloom table, as line 215
    reads it; a cell outside the table has no bit. *)
Definition bloom_bit (t : Table) (i : Z) : bool :=
  match t_read t (i / 64) with
  | Ok w => Z.testbit w (i mod 64)
  | Err _ => false
  end.

(** The two copies of the SNP base in a record agree (comment of lines
    664-667). *)
Definition redundant_base_agrees (r : SNPRepr) : Prop :=
  Z.shiftr (get0 r) 62 = Z.land (get1 r) 3.

(** The ids of the SNPs: [snps_map] sends a coordinate to the place of its
    record in [snps], and back; [snps_known_bits] runs beside [snps]; and
    there is room for the ids in 27 bits. *)
Definition snps_indexed (st : Build) : Prop :=
  length (snps st) = size (snps_map st) ∧
  length (snps_known_bits st) = size (snps_map st) ∧
  Z.of_nat (size (snps_map st)) <= 2 ^ 27 ∧
  ∀ coord id, snps_map st !! coord = Some id ↔
              0 <= id ∧ (get2 <$> snps st) !! Z.to_nat id = Some coord.

(** A letter in upper case. *)
Definition upper_case (ch : Z) : Z :=
  if (chr "a" <=? ch) && (ch <=? chr "z") then ch - 32 else ch.

(** ** Sample data *)

(** The parameters of a run with [-l 30 -m 36] that builds everything. *)
Definition params_30_36 : Params := mkParams 30 32 36 true true true.

(** The state the build block starts from when all four stores came back
    empty: no SNP, no entry, two zeroed tables. *)
Definition fresh_build (P : Params) : Build :=
  build_init [] [] (new_table ((1 + MAX_BLOOM P) / 64)) (new_table (1 + LMER_MASK P)).

(** 31 bases packed two bits each, base [i] at bits [2i] and [2i + 1]. *)
Definition kmer_ACG : Z := 2658501351799317732.

(** The first record of the spec's scenarios: coordinate 1000, SNP at
    position 5 of the kmer ACGTACGTACGTACGTACGTACGTACGTACG. *)
Definition record_1000 : Z * Z := (Z.lor (Z.shiftl 1000 8) 5, kmer_ACG).

(** A record with the SNP at position 0 of the kmer C followed by thirty A. *)
Definition record_C : Z * Z := (Z.shiftl 1000 8, 1).
Definition read_C : string := "CAAAAAAAAAAAAAAAAAAAAAAAAAAAAAA".

(** The bytes of a file with the given lines, each ended by a newline. *)
Fixpoint lines (ls : list string) : list Z :=
  match ls with
  | [] => []
  | l :: ls' => bytes l ++ NEWLINE :: lines ls'
  end.

(** A FASTQ file with the single read [read_C]. *)
Definition fastq_C : list Z :=
  lines ["@r"; read_C; "+"; "IIIIIIIIIIIIIIIIIIIIIIIIIIIIIII"]%string.

(** Two SNP records as the scanner sees them, coordinates 1000 and 2000. *)
Definition snps_1000_2000 : list SNPRepr := [(0, 0, 1000); (0, 0, 2000)].

(** A DB with the one kmer AAAC followed by A's (packed: 64), SNP at
    position 0, and what the first turn of the build makes of it. *)
Definition record_AAAC : Z * Z := (Z.shiftl 1000 8, 64).

Definition index_AAAC : Build :=
  Eval vm_compute in
    match build_body params_30_36 0 record_AAAC (fresh_build params_30_36) with
    | Ok st => st
    | Err _ => fresh_build params_30_36
    end.

(** A token whose window 0 passes both stages of the lookup in
    [index_AAAC], and a sequence line made of two such tokens. *)
Definition token_AAAC : string := "AAACAAAAAAAAAAAACAAAAAAAAAAAAAA".
Definition line_AAAC : list Z := bytes token_AAAC ++ chr "N" :: bytes token_AAAC.

(** A file whose fourth line, the quality line, is cut off, delivered in
    two chunks. *)
Definition reads_cut : list read_result :=
  [Bytes (lines ["@r"%string] ++ line_AAAC); Bytes (NEWLINE :: lines ["+"%string] ++ bytes "III")].

(** A file that ends inside the sequence line. *)
Definition reads_truncated : list read_result :=
  [Bytes (lines ["@r"%string] ++ bytes "ACGT")].

(** A table that agrees with the [lmer_index] of [index_AAAC] in cell 0 and
    differs from it in cell 5. *)
Definition lmer_index_other : Table :=
  mkTable (t_len (lmer_index index_AAAC)) (<[5 := 77]> (t_cells (lmer_index index_AAAC))).

(** The scanner after the header line of a read. *)
Definition scan_after_header : Scan :=
  mkScan 0 NEWLINE 0 (replicate (Z.to_nat MAX_TOKEN_LENGTH) 0) [] ∅.

(** The last two records of a DB that fills the loop, two kmers over the
    SNP at 1000 one position apart, and what the last two turns of the
    build make of them. *)
Definition last_records : DB :=
  [(Z.shiftl 1000 8, 2 ^ 32 + 64); (Z.lor (Z.shiftl 1000 8) 1, 2 ^ 34 + 256 + 3)].

Definition index_last : Build :=
  Eval vm_compute in
    match build_loop params_30_36 last_records (LOOP_BOUND - 4) (fresh_build params_30_36) with
    | Ok st => st
    | Err _ => fresh_build params_30_36
    end.

(** The array [code_dict] as [kmer_lookup] finds it on its stack (line
    148), here with the same byte in every cell. *)
Definition stack_garbage : list Z := replicate 256 205.

Definition code_dict_made : list Z :=
  Eval vm_compute in
    match part_000.make_code_dict stack_garbage with
    | Ok code_dict => code_dict
    | Err _ => []
    end.

(** * Properties *)

(** ** The outcome monad *)

Lemma bind_Ok {A B} (k : A → res B) (a : A) : (Ok a ≫= k) = k a.
Proof. reflexivity. Qed.

Lemma bind_Err {A B} (k : A → res B) (f : failure) : (Err f ≫= k) = Err f.
Proof. reflexivity. Qed.

Lemma bind_Ok_inv {A B} (k : A → res B) (m : res A) (b : B) :
  (m ≫= k) = Ok b → ∃ a, m = Ok a ∧ k a = Ok b.
Proof. destruct m as [a|f]; simpl; [eauto | discriminate]. Qed.

Lemma assert_Ok_inv (b : bool) (what : string) (u : unit) :
  assert b what = Ok u → b = true.
Proof. destruct b; [reflexivity | discriminate]. Qed.

Lemma assert_true (what : string) : assert true what = Ok tt.
Proof. reflexivity. Qed.

(** Take a hypothesis [m ≫= k = Ok b] apart, one bind at a time. *)
Ltac inv_bind H :=
  let a := fresh "a" in
  let Ha := fresh "Ha" in
  apply bind_Ok_inv in H; destruct H as (a & Ha & H).

Ltac inv_assert H :=
  let u := fresh "u" in
  let Ha := fresh "Hassert" in
  apply bind_Ok_inv in H; destruct H as (u & Ha & H);
  apply assert_Ok_inv in Ha.

(** ** Command line *)

Lemma check_params_Ok_iff (o : Options) (M2 : Z) :
  check_params o = Ok M2 ↔ L2 o = 30 ∧ M2 = 32 ∧ 0 < M3 o < 64.
Proof.
  unfold check_params. split.
  - intros H. repeat inv_assert H. injection H as <-.
    repeat match goal with
           | H : (_ <? _) = true |- _ => apply Z.ltb_lt in H
           | H : (_ <=? _) = true |- _ => apply Z.leb_le in H
           | H : (_ =? _) = true |- _ => apply Z.eqb_eq in H
           end.
    unfold K2, BITS_PER_BASE, K in *. lia.
  - intros (HL & -> & HM). rewrite HL. unfold K2, BITS_PER_BASE, K. simpl.
    destruct (Z.ltb_spec 0 (M3 o)); [|lia].
    destruct (Z.ltb_spec (M3 o) 64); [|lia].
    reflexivity.
Qed.

Lemma supported_32_iff (m3 : Z) :
  supported 32 m3 = true ↔ m3 ∈ [30; 32; 34; 35; 36; 37].
Proof.
  unfold supported, instances, instance_runs. simpl.
  rewrite !elem_of_cons, elem_of_nil.
  repeat match goal with
         | |- context [m3 =? ?k] => destruct (Z.eqb_spec m3 k)
         end; simpl; split; intros H; try discriminate; try reflexivity;
    try (subst; tauto); try lia.
Qed.

Lemma startup_Ok_iff (fs : list flag) (inputs : list string) (o : Options) (M2 : Z) :
  startup fs inputs = Ok (o, M2) ↔
  parse_flags default_options fs = Ok o ∧ check_params o = Ok M2 ∧
  dbflag o = true ∧ inputs ≠ [].
Proof.
  unfold startup. split.
  - intros H. inv_bind H. inv_bind H.
    destruct (dbflag a) eqn:Hd; simpl in H; [|discriminate].
    case_bool_decide; [discriminate|]. injection H as <- <-. auto.
  - intros (Hp & Hc & Hd & Hi). rewrite Hp. simpl. rewrite Hc. simpl.
    rewrite Hd. simpl. rewrite bool_decide_eq_false_2 by assumption. reflexivity.
Qed.

(** C6, as the code has it: the run gets past the start-up checks and
    finds a scanner instance exactly when [-d] and an input are given,
    [-l] is 30 and [-m] is one of 30, 32, 34, 35, 36, 37; every other value,
    the default [-l 29] included, stops the process. *)
Theorem startup_accepts_iff (fs : list flag) (inputs : list string) :
  (∃ o M2, startup fs inputs = Ok (o, M2) ∧ supported M2 (M3 o) = true) ↔
  (∃ o, parse_flags default_options fs = Ok o ∧ dbflag o = true ∧ inputs ≠ [] ∧
        L2 o = 30 ∧ M3 o ∈ [30; 32; 34; 35; 36; 37]).
Proof.
  split.
  - intros (o & M2 & Hs & Hsup).
    apply startup_Ok_iff in Hs as (Hp & Hc & Hd & Hi).
    apply check_params_Ok_iff in Hc as (HL & -> & HM).
    apply supported_32_iff in Hsup. eauto 10.
  - intros (o & Hp & Hd & Hi & HL & HM).
    exists o, 32. split.
    + apply startup_Ok_iff. repeat split; try assumption.
      apply check_params_Ok_iff. repeat split; try assumption.
      all: rewrite !elem_of_cons, elem_of_nil in HM; lia.
    + by apply supported_32_iff.
Qed.

(** C6, as the spec has it, fails at the defaults: [-d db.bin reads.fq]
    leaves [-l] at 29 and [-m] at 36, both inside the documented ranges, and
    the run stops at the assertion on [L2]. *)
Lemma startup_default_rejected :
  1 <= L2 default_options <= 32 ∧ 1 <= M3 default_options <= 63 ∧
  startup [Flag_d "db.bin"] ["reads.fq"%string]
  = Err (AssertFailed "Sorry, for now only -l 30 is supported.").
Proof. vm_compute. repeat split; congruence. Qed.

(** With [-l 30] the start-up checks pass for every [-m] in 1..63, and the
    scanner then refuses one that has no instance, for example 31. *)
Lemma startup_l30_m31 :
  startup [Flag_d "db.bin"; Flag_l 30; Flag_m 31] ["reads.fq"%string]
  = Ok (mkOptions true "db.bin" "./out" 30 31 1 false, 32) ∧
  supported 32 31 = false.
Proof. vm_compute. split; reflexivity. Qed.

(** ** The scanner chain *)

Section kmer_lookup_facts.
Variables lmer_index mmer_bloom : Table.
Variable kmers_index : list Z.
Variable snps : list SNPRepr.
Variables M2 M3 : Z.
Variable reads : list read_result.

Lemma kmer_lookup_work_skip (inst : Z * Z) :
  instance_runs inst M2 M3 = false →
  kmer_lookup_work inst.1 inst.2 lmer_index mmer_bloom kmers_index snps M2 M3 reads
  = Ok None.
Proof.
  intros H. unfold kmer_lookup_work. destruct inst as [m2 m3]. simpl in *.
  rewrite H. reflexivity.
Qed.

Lemma kmer_lookup_chain_none (insts : list (Z * Z)) :
  existsb (fun inst => instance_runs inst M2 M3) insts = false →
  kmer_lookup_chain insts lmer_index mmer_bloom kmers_index snps M2 M3 reads
  = Ok None.
Proof.
  induction insts as [|inst insts IH]; simpl; [reflexivity|].
  intros H. apply orb_false_iff in H as [H1 H2].
  rewrite kmer_lookup_work_skip by assumption. simpl. auto.
Qed.

(** No instance for [(M2, M3)]: every scanner thread fails the assertion
    on [match]. *)
Lemma kmer_lookup_unsupported :
  supported M2 M3 = false →
  kmer_lookup lmer_index mmer_bloom kmers_index snps M2 M3 reads
  = Err (AssertFailed "See comment for supporrted values of L and M.").
Proof.
  intros H. unfold kmer_lookup. rewrite kmer_lookup_chain_none by exact H.
  reflexivity.
Qed.
End kmer_lookup_facts.

(** ** Index store *)

Lemma wrap64_small (x : Z) : 0 <= x < 2 ^ 64 → wrap64 x = x.
Proof. intros H. unfold wrap64. apply Z.mod_small. exact H. Qed.

(** C8, as the code has it.  For a store constructed with an element count
    [n > 0]: a nonempty file of another size than [n * sizeof] is fatal;
    [false] (nothing to build) comes back exactly when the file is nonempty,
    has that size and is mapped or completely read; [true] comes back, with
    a buffer of [n] elements, when the file is missing or empty (the buffer
    is then all zero) and also when a file of the right size could not be
    mapped or read. *)
Theorem mmap_or_load_expected {E} (T : ElementType E) (bf : BackingFile E)
    (preload : bool) (n : Z) :
  0 < n → 0 < sizeof T → n * sizeof T < 2 ^ 64 →
  match mmap_or_load T bf preload (DBIndex_new n) with
  | Err f =>
      get_fsize bf ≠ 0 ∧ get_fsize bf ≠ n * sizeof T ∧
      f = AssertFailed "filesize == expected_element_count * sizeof(ElementType)"
  | Ok (false, ix) =>
      get_fsize bf = n * sizeof T ∧ io_succeeds bf preload n = true ∧
      loaded_or_mmapped ix = true ∧
      (if preload then elements ix = take (Z.to_nat n) (bf_data bf)
       else mmapped_data ix = Some (bf_data bf))
  | Ok (true, ix) =>
      (get_fsize bf = 0 ∨ (get_fsize bf = n * sizeof T ∧ io_succeeds bf preload n = false)) ∧
      loaded_or_mmapped ix = false ∧ mmapped_data ix = None ∧
      length (elements ix) = Z.to_nat n ∧
      (get_fsize bf = 0 → elements ix = replicate (Z.to_nat n) (zero T))
  end.
Proof.
  intros Hn HT Hbound.
  assert (Hw : wrap64 (n * sizeof T) = n * sizeof T) by (apply wrap64_small; nia).
  assert (Hn0 : (n =? 0) = false) by (apply Z.eqb_neq; lia).
  unfold mmap_or_load, DBIndex_new. simpl.
  destruct (Z.eqb_spec (get_fsize bf) 0) as [Hz|Hz]; simpl.
  { rewrite Hz. repeat split; auto; [by rewrite length_resize | by rewrite resize_nil]. }
  rewrite Hn0, Hw.
  destruct (Z.eqb_spec (get_fsize bf) (n * sizeof T)) as [Hs|Hs]; simpl;
    [|by repeat split].
  unfold io_succeeds. destruct preload.
  - unfold load. simpl.
    destruct (Z.eqb_spec (bf_fd bf) (-1)) as [Hfd|Hfd]; simpl.
    { repeat split; auto; [by rewrite length_resize | congruence]. }
    unfold address. simpl. rewrite length_resize.
    destruct (Z.ltb_spec 0 (Z.of_nat (Z.to_nat n))) as [_|?]; [simpl|lia].
    set (available := match bf_fread bf with
                      | Some k => (k `min` length (bf_data bf))%nat
                      | None => length (bf_data bf)
                      end).
    rewrite orb_false_r.
    case_bool_decide as Hc; simpl.
    + assert (Z.to_nat n ≤ available)%nat by lia.
      rewrite bool_decide_eq_true_2 by assumption.
      repeat split; auto.
      unfold fread_into. rewrite Nat.min_l by assumption.
      rewrite drop_ge by (rewrite length_resize; lia).
      by rewrite app_nil_r.
    + assert (¬ (Z.to_nat n ≤ available)%nat) by lia.
      rewrite bool_decide_eq_false_2 by assumption.
      repeat split; auto; [|congruence].
      rewrite length_resize. reflexivity.
  - unfold MMAP. simpl.
    destruct (Z.eqb_spec (bf_fd bf) (-1)) as [Hfd|Hfd]; simpl.
    { repeat split; auto; [by rewrite length_resize | congruence]. }
    destruct (bf_mmap bf); simpl.
    + repeat split; auto.
    + repeat split; auto; [by rewrite length_resize | congruence].
Qed.

(** A two-word file behind a store of two [uint64_t]: it is mapped. *)
Lemma mmap_or_load_expected_witness :
  mmap_or_load uint64_t (mkBackingFile Z (Some 16) 3 true [5; 7] None) false (DBIndex_new 2)
  = Ok (false, mkDBIndex true [] (Some [5; 7]) 2 3 16) ∧
  (get_fsize (mkBackingFile Z (Some 16) 3 true [5; 7] None) = 2 * sizeof uint64_t ∧
   io_succeeds (mkBackingFile Z (Some 16) 3 true [5; 7] None) false 2 = true ∧
   true = true ∧ Some [5; 7] = Some [5; 7]).
Proof.
  split; [reflexivity|].
  apply (mmap_or_load_expected uint64_t
           (mkBackingFile Z (Some 16) 3 true [5; 7] None) false 2);
    simpl; lia.
Defined.

(** C8, as the spec has it, fails where the file is there with exactly the
    expected size and cannot be opened: the store falls back to a zeroed
    buffer and asks for a rebuild. *)
Lemma mmap_or_load_unopenable :
  get_fsize (mkBackingFile Z (Some 16) (-1) true [5; 7] None) = 2 * sizeof uint64_t ∧
  mmap_or_load uint64_t (mkBackingFile Z (Some 16) (-1) true [5; 7] None) false (DBIndex_new 2)
  = Ok (true, mkDBIndex false [0; 0] None 2 (-1) 16).
Proof. split; reflexivity. Qed.

(** The same with [preload] and an [fread] that stops after one element:
    the rebuild buffer is not even zeroed. *)
Lemma mmap_or_load_short_read :
  mmap_or_load uint64_t (mkBackingFile Z (Some 16) 3 true [5; 7] (Some 1%nat)) true (DBIndex_new 2)
  = Ok (true, mkDBIndex false [5; 0] None 2 (-1) 16).
Proof. reflexivity. Qed.

(** C9, as the code has it.  A store constructed without an element count
    takes the count from the size of a nonempty file, and the size check
    that follows fails exactly when that size is not a multiple of the
    element size; a file whose size is a multiple is taken as it is, with
    the count [size / sizeof]. *)
Theorem mmap_or_load_unsized {E} (T : ElementType E) (bf : BackingFile E)
    (preload : bool) :
  0 < get_fsize bf < 2 ^ 64 → 0 < sizeof T →
  match mmap_or_load T bf preload (DBIndex_new 0) with
  | Err f =>
      get_fsize bf mod sizeof T ≠ 0 ∧
      f = AssertFailed "filesize == expected_element_count * sizeof(ElementType)"
  | Ok (needs_build, ix) =>
      get_fsize bf mod sizeof T = 0 ∧
      expected_element_count ix = get_fsize bf / sizeof T ∧
      needs_build = negb (io_succeeds bf preload (get_fsize bf / sizeof T))
  end.
Proof.
  intros Hsz HT.
  pose proof (Z.div_mod (get_fsize bf) (sizeof T) ltac:(lia)) as Hdm.
  pose proof (Z.mod_pos_bound (get_fsize bf) (sizeof T) HT) as Hmb.
  assert (Hq : 0 <= get_fsize bf / sizeof T) by (apply Z.div_pos; lia).
  assert (Hw : wrap64 (get_fsize bf / sizeof T * sizeof T)
               = get_fsize bf / sizeof T * sizeof T) by (apply wrap64_small; nia).
  unfold mmap_or_load, DBIndex_new. simpl.
  destruct (Z.eqb_spec (get_fsize bf) 0) as [Hz|Hz]; [lia|]. simpl.
  rewrite Hw.
  destruct (Z.eqb_spec (get_fsize bf) (get_fsize bf / sizeof T * sizeof T)) as [Hs|Hs];
    simpl; [|split; [lia|reflexivity]].
  assert (Hmod : get_fsize bf mod sizeof T = 0) by lia.
  assert (Hq1 : 0 < get_fsize bf / sizeof T) by nia.
  unfold io_succeeds. destruct preload.
  - unfold load. simpl.
    destruct (Z.eqb_spec (bf_fd bf) (-1)) as [Hfd|Hfd]; simpl; [by repeat split|].
    unfold address. simpl. rewrite length_resize.
    destruct (Z.ltb_spec 0 (Z.of_nat (Z.to_nat (get_fsize bf / sizeof T)))) as [_|?];
      [simpl|lia].
    set (available := match bf_fread bf with
                      | Some k => (k `min` length (bf_data bf))%nat
                      | None => length (bf_data bf)
                      end).
    rewrite orb_false_r.
    case_bool_decide as Hc; simpl.
    + rewrite bool_decide_eq_true_2 by lia. by repeat split.
    + rewrite bool_decide_eq_false_2 by lia. by repeat split.
  - unfold MMAP. simpl.
    destruct (Z.eqb_spec (bf_fd bf) (-1)) as [Hfd|Hfd]; simpl; [by repeat split|].
    destruct (bf_mmap bf); simpl; by repeat split.
Qed.

(** A [snps] file of 48 bytes, whatever the source DB holds: two elements. *)
Lemma mmap_or_load_unsized_witness :
  mmap_or_load SNPRepr_t
    (mkBackingFile SNPRepr (Some 48) 3 true [(1, 2, 3); (4, 5, 6)] None) false (DBIndex_new 0)
  = Ok (false, mkDBIndex true [] (Some [(1, 2, 3); (4, 5, 6)]) 2 3 48) ∧
  (48 mod 24 = 0 ∧ 2 = 48 / 24 ∧ false = negb true).
Proof.
  split; [reflexivity|].
  apply (mmap_or_load_unsized SNPRepr_t
           (mkBackingFile SNPRepr (Some 48) 3 true [(1, 2, 3); (4, 5, 6)] None) false);
    [vm_compute; split; reflexivity | reflexivity].
Defined.

(** C9, as the claim has it, fails at a [snps] file of 25 bytes: the store
    has no expected count, and the size check is fatal all the same. *)
Lemma mmap_or_load_snps_25_bytes :
  mmap_or_load SNPRepr_t (mkBackingFile SNPRepr (Some 25) 3 true [(1, 2, 3)] None) false
    (DBIndex_new 0)
  = Err (AssertFailed "filesize == expected_element_count * sizeof(ElementType)").
Proof. reflexivity. Qed.

(** ** DB optimizer: the emitted entry *)

Example kmer_ACG_packs_31_bases :
  seq_encode K2 (bytes "ACGTACGTACGTACGTACGTACGTACGTACG") = Ok kmer_ACG.
Proof. vm_compute. reflexivity. Qed.

(** The entry is the truth value of [(snp_id << 5) || offset]. *)
Lemma kmer_repr_le_1 (snp_id offset : Z) : 0 <= kmer_repr snp_id offset <= 1.
Proof. unfold kmer_repr. destruct (_ || _); lia. Qed.

Lemma kmer_repr_decodes (snp_id offset : Z) :
  Z.shiftr (kmer_repr snp_id offset) 5 = 0 ∧
  Z.land (kmer_repr snp_id offset) 31 = kmer_repr snp_id offset.
Proof. unfold kmer_repr. destruct (_ || _); split; reflexivity. Qed.

Lemma build_snp_entry (kmer snp_with_offset : Z) (st st' : Build) :
  build_snp kmer snp_with_offset st = Ok st' →
  ∃ e, kmer_index st' = kmer_index st ++ [e] ∧ 0 <= e <= 1.
Proof.
  unfold build_snp. intros H.
  destruct (snps_map st !! Z.shiftr snp_with_offset 8) as [snp_id|];
    repeat inv_assert H; repeat inv_bind H; repeat inv_assert H;
    injection H as <-; simpl; eexists; (split; [reflexivity|apply kmer_repr_le_1]).
Qed.

(** C2 at the record (coordinate 1000, offset 5), the first of a build from
    nothing: the SNP gets id 0, the entry should be [(0 << 5) | 5 = 5], and
    the entry pushed is 1. *)
Theorem build_body_entry_is_truth_value :
  ∃ st, build_body params_30_36 0 record_1000 (fresh_build params_30_36) = Ok st ∧
        snps_map st !! 1000 = Some 0 ∧
        Z.land record_1000.1 255 = 5 ∧
        Z.lor (shl32 0 5) 5 = 5 ∧
        kmer_index st = [1].
Proof.
  eexists. split; [vm_compute; reflexivity|].
  repeat split; vm_compute; reflexivity.
Qed.

(** C1 at the same record: the entry 1 decodes to SNP 0 and offset 1, the
    kmer rebuilt from [snps[0]] at offset 1 is not the record's kmer (at the
    record's own offset 5 it would be), and the validation pass stops at
    its first record. *)
Theorem validation_rejects_built_entry :
  ∃ st snp_repr,
    build_body params_30_36 0 record_1000 (fresh_build params_30_36) = Ok st ∧
    read (kmer_index st) 0 = Ok 1 ∧
    read (snps st) (Z.shiftr 1 5) = Ok snp_repr ∧
    db_kmer_of snp_repr (Z.land 1 31) ≠ record_1000.2 ∧
    db_kmer_of snp_repr 5 = record_1000.2 ∧
    validate_body 0 record_1000 st = Err (AssertFailed "kmer == db_kmer").
Proof.
  eexists. eexists. split; [vm_compute; reflexivity|].
  split; [reflexivity|]. split; [vm_compute; reflexivity|].
  repeat split; vm_compute; congruence.
Qed.

(** What the [||] of line 642 takes away: with the entry the comments
    describe, [snp_id] and the record's own [offset], the kmer comes back
    from the two halves the build stores for it. *)
Lemma db_kmer_of_halves (kmer offset coord : Z) :
  0 <= kmer < 2 ^ 62 → 0 <= offset < 31 →
  db_kmer_of (shl64 kmer (62 - offset * BITS_PER_BASE),
              Z.shiftr kmer (offset * BITS_PER_BASE), coord) offset = kmer.
Proof.
  intros Hk Ho. unfold db_kmer_of, get0, get1, shl64, wrap64, BITS_PER_BASE. simpl.
  change BIT_MASK with (Z.ones 62).
  apply Z.bits_inj'. intros i Hi.
  rewrite Z.land_spec, Z.lor_spec, Z.shiftr_spec by lia.
  rewrite Z.testbit_ones by lia.
  destruct (Z.leb_spec 0 i) as [_|?]; [simpl|lia].
  destruct (Z.ltb_spec i 62) as [Hlt|Hge].
  - rewrite andb_true_r.
    rewrite (Z.mod_pow2_bits_low _ 64 i) by lia.
    rewrite Z.shiftl_spec by lia.
    destruct (Z.ltb_spec i (offset * 2)) as [Hlo|Hhi].
    + rewrite (Z.testbit_neg_r _ (i - offset * 2)) by lia. simpl.
      rewrite Z.mod_pow2_bits_low by lia.
      rewrite Z.shiftl_spec by lia. f_equal. lia.
    + rewrite Z.shiftr_spec by lia.
      replace (i - offset * 2 + offset * 2) with i by lia.
      destruct (Z.testbit kmer i) eqn:Hb; [reflexivity|]. simpl.
      destruct (Z.ltb_spec (i + (62 - offset * 2)) 64).
      * rewrite Z.mod_pow2_bits_low by lia.
        rewrite Z.shiftl_spec by lia.
        replace (i + (62 - offset * 2) - (62 - offset * 2)) with i by lia.
        exact Hb.
      * rewrite Z.mod_pow2_bits_high by lia. reflexivity.
  - rewrite andb_false_r. symmetry.
    destruct (Z.eq_dec kmer 0) as [->|Hne]; [apply Z.bits_0|].
    apply Z.bits_above_log2; [lia|].
    assert (Z.log2 kmer < 62) by (apply Z.log2_lt_pow2; lia). lia.
Qed.

(** ** DB optimizer: how far the two passes go *)

Lemma build_loop_done (P : Params) (db : DB) (end_ : Z) (st : Build) :
  LOOP_BOUND <= end_ → build_loop P db end_ st = Ok st.
Proof.
  intros H. destruct db; simpl; destruct (Z.ltb_spec end_ LOOP_BOUND); (lia || reflexivity).
Qed.

Lemma validate_loop_done (db : DB) (end_ : Z) (st : Build) :
  LOOP_BOUND <= end_ → validate_loop db end_ st = Ok tt.
Proof.
  intros H. destruct db; simpl; destruct (Z.ltb_spec end_ LOOP_BOUND); (lia || reflexivity).
Qed.

Lemma turns_left_step (end_ : Z) :
  end_ < LOOP_BOUND → turns_left end_ = S (turns_left (end_ + 2)).
Proof.
  intros H. unfold turns_left.
  replace (LOOP_BOUND - end_ + 1) with ((LOOP_BOUND - (end_ + 2) + 1) + 1 * 2) by lia.
  rewrite Z.div_add by lia.
  assert (0 <= (LOOP_BOUND - (end_ + 2) + 1) / 2) by (apply Z.div_pos; lia).
  lia.
Qed.

Lemma build_loop_take (P : Params) (db : DB) (end_ : Z) (st : Build) :
  build_loop P db end_ st = build_loop P (take (turns_left end_) db) end_ st.
Proof.
  revert end_ st. induction db as [|record db IH]; intros end_ st.
  - by rewrite take_nil.
  - destruct (Z.ltb_spec end_ LOOP_BOUND) as [Hlt|Hge].
    + rewrite turns_left_step by assumption. simpl.
      destruct (Z.ltb_spec end_ LOOP_BOUND); [|lia].
      destruct (build_body P end_ record st) as [st'|f]; simpl; [apply IH|reflexivity].
    + by rewrite !build_loop_done.
Qed.

Lemma validate_loop_take (db : DB) (end_ : Z) (st : Build) :
  validate_loop db end_ st = validate_loop (take (turns_left end_) db) end_ st.
Proof.
  revert end_. induction db as [|record db IH]; intros end_.
  - by rewrite take_nil.
  - destruct (Z.ltb_spec end_ LOOP_BOUND) as [Hlt|Hge].
    + rewrite turns_left_step by assumption. simpl.
      destruct (Z.ltb_spec end_ LOOP_BOUND); [|lia].
      destruct (validate_body end_ record st) as [u|f]; simpl; [apply IH|reflexivity].
    + by rewrite !validate_loop_done.
Qed.

(** C5, what the code does instead: both passes see the first ten million
    records and nothing else; whatever the file holds after them never
    reaches the bloom, the kmer index, the lmer index or the validation. *)
Theorem passes_see_ten_million_records (P : Params) (db : DB) (st : Build) :
  build_loop P db 0 st = build_loop P (take (Z.to_nat 10000000) db) 0 st ∧
  validate_loop db 0 st = validate_loop (take (Z.to_nat 10000000) db) 0 st ∧
  optimize P db st = optimize P (take (Z.to_nat 10000000) db) st.
Proof.
  assert (Ht : turns_left 0 = Z.to_nat 10000000) by reflexivity.
  assert (Hb : ∀ st', build_loop P db 0 st'
                      = build_loop P (take (Z.to_nat 10000000) db) 0 st').
  { intros st'. rewrite <- Ht. apply build_loop_take. }
  assert (Hv : ∀ st', validate_loop db 0 st'
                      = validate_loop (take (Z.to_nat 10000000) db) 0 st').
  { intros st'. rewrite <- Ht. apply validate_loop_take. }
  split; [apply Hb|]. split; [apply Hv|].
  unfold optimize.
  destruct (_ || _); [|reflexivity].
  assert (He : bool_decide (take (Z.to_nat 10000000) db = []) = bool_decide (db = [])).
  { destruct db; [reflexivity|].
    replace (Z.to_nat 10000000) with (S (Z.to_nat 9999999)) by lia. reflexivity. }
  rewrite He, Hb.
  destruct (build_loop P (take (Z.to_nat 10000000) db) 0 _) as [st'|f]; simpl;
    [|reflexivity].
  destruct (assert _ _); simpl; [|reflexivity].
  by rewrite Hv.
Qed.

(** C5 at the smallest DB: with one record in the file the first pass does
    not stop after it; the second turn reads [db_data[3]], past the end of
    the mapping. *)
Lemma build_loop_one_record :
  is_ok (build_body params_30_36 0 record_1000 (fresh_build params_30_36)) = true ∧
  build_loop params_30_36 [record_1000] 0 (fresh_build params_30_36) = Err MemFault.
Proof. split; vm_compute; reflexivity. Qed.

(** ** Scanner: the stage-1 lookup *)

(** C3 at a DB with the one kmer C followed by thirty A (packed: 1) and a
    read that is this kmer.  The build sets bit [1 & MAX_BLOOM = 1]; the
    scanner computes the same kmer 1 for window 0 and looks up the bit
    given by nine bases from position 13 on, which is bit 0 and is clear:
    the window is skipped and the scan ends without a hit.  With bit 0 set
    as well, the very same indices give the hit.  Reading the lengths of
    [seq_encode] as bases changes nothing here: all 31 bases pack to 1 too,
    and the last [XX] bases of the window pack to 0. *)
Theorem bloom_lookup_misses_db_kmer :
  ∃ st mpres scanned bloom' scanned',
    build_body params_30_36 0 record_C (fresh_build params_30_36) = Ok st ∧
    t_read (mmer_bloom st) (Z.land record_C.2 (MAX_BLOOM params_30_36) / 64) = Ok 2 ∧
    seq_encode K (bytes read_C) = Ok record_C.2 ∧
    seq_encode K2 (bytes read_C) = Ok record_C.2 ∧
    seq_encode (2 * XX 36) (from (bytes read_C) (0 + K - XX 36)) = Ok 0 ∧
    bloom_lookup 36 (mmer_bloom st) (bytes read_C) 0 = Ok mpres ∧
    Z.land mpres 1 = 0 ∧
    read_loop 32 36 (lmer_index st) (mmer_bloom st) (kmer_index st) (snps st)
      [Bytes fastq_C] scan_init = Ok scanned ∧
    kmer_matches scanned = [] ∧
    t_write (mmer_bloom st) 0 3 = Ok bloom' ∧
    read_loop 32 36 (lmer_index st) bloom' (kmer_index st) (snps st)
      [Bytes fastq_C] scan_init = Ok scanned' ∧
    kmer_matches scanned' = [0].
Proof.
  do 5 eexists.
  split; [vm_compute; reflexivity|].
  split; [vm_compute; reflexivity|].
  split; [vm_compute; reflexivity|].
  split; [vm_compute; reflexivity|].
  split; [vm_compute; reflexivity|].
  split; [vm_compute; reflexivity|].
  split; [reflexivity|].
  split; [vm_compute; reflexivity|].
  split; [vm_compute; reflexivity|].
  split; [vm_compute; reflexivity|].
  split; vm_compute; reflexivity.
Qed.

(** ** Scanner: emission *)

(** A line is written only when the next value differs, so, over a sorted
    list, every coordinate written is below some value of the list: the
    largest coordinate is never written. *)
Lemma emit_loop_below (its : list Z) (cur_snp cur_count : Z) :
  Sorted Z.le (cur_snp :: its) →
  ∀ line, line ∈ emit_loop its cur_snp cur_count → ∃ it, it ∈ its ∧ line.1 < it.
Proof.
  revert cur_snp cur_count. induction its as [|it its IH]; intros cur n Hs line Hin.
  - by apply elem_of_nil in Hin.
  - apply Sorted_inv in Hs as [Hs Hhd]. apply HdRel_inv in Hhd.
    simpl in Hin. destruct (Z.eqb_spec it cur) as [->|Hne]; simpl in Hin.
    + destruct (IH _ _ Hs _ Hin) as (y & Hy & Hlt).
      exists y. split; [by apply list_elem_of_further|exact Hlt].
    + apply elem_of_cons in Hin as [->|Hin].
      * exists it. split; [apply list_elem_of_here|simpl; lia].
      * destruct (IH _ _ Hs _ Hin) as (y & Hy & Hlt).
        exists y. split; [by apply list_elem_of_further|exact Hlt].
Qed.



(** C4 at a file whose reads hit SNP 0 twice and SNP 1 once (coordinates
    1000 and 2000): the output file has the line for 1000 and no line for
    2000; with hits on one SNP only, it is empty. *)
Theorem emit_drops_last_group :
  emit snps_1000_2000 [0; 1; 0] = Ok [(1000, 2)] ∧
  render [(1000, 2)] = "1000" +:+ TAB +:+ "2" +:+ LF ∧
  emit snps_1000_2000 [0] = Ok [] ∧
  emit snps_1000_2000 [1; 1; 1] = Ok [].
Proof. repeat split; vm_compute; reflexivity. Qed.

(** ** Scanner: what a token can change *)

Lemma same_position_refl (st : Scan) : same_position st st.
Proof. by repeat split. Qed.

Lemma same_position_trans (st1 st2 st3 : Scan) :
  same_position st1 st2 → same_position st2 st3 → same_position st1 st3.
Proof.
  intros (?&?&?&?) (?&?&?&?). repeat split; congruence.
Qed.

Lemma read_hits_nil_more (base : list Z) (st : Scan) (hits : list Z) :
  read_hits base st hits → ∃ more, read_hits base st (hits ++ more).
Proof. intros H. exists []. by rewrite app_nil_r. Qed.

Lemma record_hit_hits (snp_id : Z) (st : Scan) :
  same_position st (record_hit snp_id st) ∧
  ∀ base hits, read_hits base st hits →
               ∃ more, read_hits base (record_hit snp_id st) (hits ++ more).
Proof.
  unfold record_hit. destruct (footprint st !! snp_id) as [v|] eqn:Hf.
  - split; [apply same_position_refl|]. intros. by apply read_hits_nil_more.
  - split; [by repeat split|].
    intros base hits (Hm & Hnd & Hfp). exists [snp_id]. repeat split; simpl.
    + by rewrite Hm, app_assoc.
    + apply NoDup_app. repeat split; [exact Hnd| |apply NoDup_singleton].
      intros x Hx ->%list_elem_of_singleton.
      apply Hfp in Hx. rewrite Hf in Hx. by destruct Hx.
    + intros Hx. apply elem_of_app in Hx as [Hx| ->%list_elem_of_singleton].
      * destruct (decide (snp_id = snp_id0)) as [->|Hne].
        -- rewrite lookup_insert_eq. eauto.
        -- rewrite lookup_insert_ne by exact Hne. by apply Hfp.
      * rewrite lookup_insert_eq. eauto.
    + intros Hx. apply elem_of_app.
      destruct (decide (snp_id = snp_id0)) as [->|Hne].
      * right. by apply list_elem_of_singleton.
      * left. rewrite lookup_insert_ne in Hx by exact Hne. by apply Hfp.
Qed.

Section scanner_facts.
Variables M2 M3 : Z.
Variables lmer_index mmer_bloom : Table.
Variable kmers_index : list Z.
Variable snps : list SNPRepr.

Lemma only_hits_refl (st : Scan) : only_hits st st.
Proof. split; [apply same_position_refl|]. intros. by apply read_hits_nil_more. Qed.

Lemma only_hits_trans (st1 st2 st3 : Scan) :
  only_hits st1 st2 → only_hits st2 st3 → only_hits st1 st3.
Proof.
  intros [Hp1 Hh1] [Hp2 Hh2]. split; [by eapply same_position_trans|].
  intros base hits H. destruct (Hh1 _ _ H) as (m1 & H1).
  destruct (Hh2 _ _ H1) as (m2 & H2). exists (m1 ++ m2). by rewrite app_assoc.
Qed.

Lemma probe_only_hits (cells : list Z) (z end_ kmer : Z) (st st' : Scan) :
  probe snps cells z end_ kmer st = Ok st' → only_hits st st'.
Proof.
  revert z st. induction cells as [|kmi cells IH]; intros z st; simpl.
  - destruct (z <? end_); [discriminate|]. intros [= <-]. apply only_hits_refl.
  - destruct (z <? end_); [|intros [= <-]; apply only_hits_refl].
    intros H. inv_bind H.
    destruct (kmer =? _).
    + apply IH in H. eapply only_hits_trans; [|exact H].
      apply record_hit_hits.
    + destruct (kmer <? _); [injection H as <-; apply only_hits_refl|].
      by apply IH in H.
Qed.

Lemma lookup_window_only_hits (j : Z) (st st' : Scan) :
  lookup_window M2 M3 lmer_index mmer_bloom kmers_index snps j st = Ok st' → only_hits st st'.
Proof.
  unfold lookup_window. intros H. inv_bind H.
  destruct (Z.land a 1 =? 1); [|injection H as <-; apply only_hits_refl].
  inv_bind H. inv_bind H. by apply probe_only_hits in H.
Qed.

Lemma lookup_windows_only_hits (js : list Z) (st st' : Scan) :
  lookup_windows M2 M3 lmer_index mmer_bloom kmers_index snps js st = Ok st' → only_hits st st'.
Proof.
  revert st. induction js as [|j js IH]; intros st; simpl.
  - intros [= <-]. apply only_hits_refl.
  - intros H. inv_bind H. apply lookup_window_only_hits in Ha. apply IH in H.
    by eapply only_hits_trans.
Qed.

Lemma process_token_only_hits (st st' : Scan) :
  process_token M2 M3 lmer_index mmer_bloom kmers_index snps st = Ok st' →
  only_hits st st'.
Proof. apply lookup_windows_only_hits. Qed.

Local Abbreviation scan_char := (scan_char M2 M3 lmer_index mmer_bloom kmers_index snps).
Local Abbreviation scan_chars := (scan_chars M2 M3 lmer_index mmer_bloom kmers_index snps).
Local Abbreviation read_loop := (read_loop M2 M3 lmer_index mmer_bloom kmers_index snps).

(** Off a sequence line a character moves the position and nothing else. *)
Lemma scan_char_off_sequence (st : Scan) (ch : Z) :
  cur_line st mod 4 ≠ 1 →
  scan_char st ch
  = Ok (mkScan (cur_line st) ch (token_length st) (seq_buf st)
          (kmer_matches st) (footprint st)).
Proof.
  intros H. unfold scan_char. fold (cur_line st).
  destruct (Z.eqb_spec (cur_line st mod 4) 1); [contradiction|]. reflexivity.
Qed.

(** On a sequence line, a character that is not the newline keeps the
    hits of the read and what the footprint knows of them. *)
Lemma scan_char_in_sequence (st st' : Scan) (ch : Z) :
  cur_line st mod 4 = 1 → ch ≠ NEWLINE →
  scan_char st ch = Ok st' →
  n_lines st' = cur_line st ∧ c st' = ch ∧
  ∀ base hits, read_hits base st hits → ∃ more, read_hits base st' (hits ++ more).
Proof.
  intros Hl Hch. unfold scan_char. fold (cur_line st).
  destruct (Z.eqb_spec (cur_line st mod 4) 1); [simpl|contradiction].
  destruct (Z.eqb_spec ch NEWLINE); [contradiction|]. simpl.
  destruct (_ || _); simpl.
  - intros H. inv_bind H. injection H as <-. simpl.
    assert (Ho : only_hits (mkScan (cur_line st) ch (token_length st) (seq_buf st)
                              (kmer_matches st) (footprint st)) a).
    { destruct (_ && _); [by apply process_token_only_hits in Ha|].
      injection Ha as <-. apply only_hits_refl. }
    destruct Ho as [(Hn & Hc & _ & _) Hh]. simpl in *.
    repeat split; [exact Hn|exact Hc|].
    intros base hits Hr. destruct (Hh base hits) as (more & Hm & Hnd & Hfp); [exact Hr|].
    exists more. done.
  - destruct (token_length st =? INT_MAX); [discriminate|].
    intros [= <-]. simpl. repeat split.
    intros base hits Hr. by apply read_hits_nil_more.
Qed.

(** The newline that ends a sequence line: the hits stay, the footprint
    is emptied, no token is left. *)
Lemma scan_char_end_of_read (st st' : Scan) :
  cur_line st mod 4 = 1 →
  scan_char st NEWLINE = Ok st' →
  n_lines st' = cur_line st ∧ c st' = NEWLINE ∧
  footprint st' = ∅ ∧ token_length st' = 0 ∧
  ∀ base hits, read_hits base st hits →
               ∃ more, kmer_matches st' = base ++ hits ++ more ∧ NoDup (hits ++ more).
Proof.
  intros Hl. unfold scan_char. fold (cur_line st).
  destruct (Z.eqb_spec (cur_line st mod 4) 1); [simpl|contradiction].
  intros H. inv_bind H. injection H as <-. simpl.
  assert (Ho : only_hits (mkScan (cur_line st) NEWLINE (token_length st) (seq_buf st)
                            (kmer_matches st) (footprint st)) a).
  { destruct (_ && _); [by apply process_token_only_hits in Ha|].
    injection Ha as <-. apply only_hits_refl. }
  destruct Ho as [(Hn & Hc & _ & _) Hh]. simpl in *.
  repeat split; [exact Hn|exact Hc|].
  intros base hits Hr. destruct (Hh base hits) as (more & Hm & Hnd & Hfp); [exact Hr|].
  exists more. done.
Qed.

(** Every character moves the position in the same way. *)
Lemma scan_char_position (st st' : Scan) (ch : Z) :
  scan_char st ch = Ok st' → n_lines st' = cur_line st ∧ c st' = ch.
Proof.
  intros H. destruct (decide (cur_line st mod 4 = 1)) as [Hl|Hl].
  - destruct (decide (ch = NEWLINE)) as [->|Hch].
    + apply scan_char_end_of_read in H; [|exact Hl]. tauto.
    + eapply scan_char_in_sequence in H; [|exact Hl|exact Hch]. tauto.
  - rewrite scan_char_off_sequence in H by exact Hl. by injection H as <-.
Qed.

Lemma wrap64_mod_4 (x : Z) : wrap64 x mod 4 = x mod 4.
Proof.
  unfold wrap64. change (2 ^ 64) with (4 * 2 ^ 62).
  rewrite Z.rem_mul_r by lia. rewrite Z.mul_comm, Z.mod_add by lia.
  apply Z.mod_mod. lia.
Qed.

Lemma scan_char_cur_line (st st' : Scan) (ch : Z) :
  scan_char st ch = Ok st' →
  cur_line st' mod 4 = (cur_line st + (if ch =? NEWLINE then 1 else 0)) mod 4.
Proof.
  intros H. apply scan_char_position in H as [Hn Hc].
  unfold cur_line at 1. rewrite Hn, Hc.
  destruct (ch =? NEWLINE); [apply wrap64_mod_4|by rewrite Z.add_0_r].
Qed.

Lemma scan_char_between_reads (st st' : Scan) (ch : Z) :
  between_reads st → scan_char st ch = Ok st' → between_reads st'.
Proof.
  intros Hb H. destruct (decide (cur_line st mod 4 = 1)) as [Hl|Hl].
  - destruct (decide (ch = NEWLINE)) as [->|Hch].
    + apply scan_char_end_of_read in H; [|exact Hl]. right. tauto.
    + pose proof (scan_char_cur_line _ _ _ H) as Hcl.
      eapply scan_char_in_sequence in H as (_ & Hc & _); [|exact Hl|exact Hch].
      left. split; [|congruence].
      rewrite Hcl. destruct (Z.eqb_spec ch NEWLINE); [contradiction|].
      by rewrite Z.add_0_r.
  - destruct Hb as [[Hl' _]|Hb]; [contradiction|].
    rewrite scan_char_off_sequence in H by exact Hl. injection H as <-.
    right. exact Hb.
Qed.

Lemma scan_chars_app (l1 l2 : list Z) (st : Scan) :
  scan_chars (l1 ++ l2) st = (st' ← scan_chars l1 st; scan_chars l2 st').
Proof.
  revert st. induction l1 as [|ch l1 IH]; intros st; simpl; [reflexivity|].
  destruct (scan_char st ch) as [st'|f]; simpl; [apply IH|reflexivity].
Qed.

Lemma scan_chars_between_reads (input : list Z) (st st' : Scan) :
  between_reads st → scan_chars input st = Ok st' →
  between_reads st' ∧
  cur_line st' mod 4 = (cur_line st + Z.of_nat (newlines input)) mod 4.
Proof.
  revert st. induction input as [|ch input IH]; intros st Hb; simpl.
  - intros [= <-]. split; [exact Hb|by rewrite Z.add_0_r].
  - intros H. inv_bind H.
    pose proof (scan_char_cur_line _ _ _ Ha) as Hcl.
    apply scan_char_between_reads in Ha; [|exact Hb].
    destruct (IH _ Ha H) as [Hb' Hcl']. split; [exact Hb'|].
    rewrite Hcl', Z.add_mod, Hcl, <- Z.add_mod by lia.
    f_equal. destruct (ch =? NEWLINE); lia.
Qed.

Lemma between_reads_init : between_reads scan_init ∧ cur_line scan_init = 0.
Proof. split; [by right|reflexivity]. Qed.

(** What the chunks hold is scanned as one sequence of characters. *)
Lemma read_loop_Ok (reads : list read_result) (st st' : Scan) :
  read_loop reads st = Ok st' → scan_chars (consumed reads) st = Ok st'.
Proof.
  revert st. induction reads as [|[window|] reads IH]; intros st; simpl.
  - done.
  - case_bool_decide as Hw; [done|]. intros Hr. inv_bind Hr.
    rewrite scan_chars_app, Ha. simpl. by apply IH.
  - discriminate.
Qed.

(** At the end of the input a token is pending only inside a sequence
    line. *)
Lemma token_pending_at_eof (reads : list read_result) (st : Scan) :
  read_loop reads scan_init = Ok st →
  token_length st ≠ 0 →
  Z.of_nat (newlines (consumed reads)) mod 4 = 1 ∧ c st ≠ NEWLINE.
Proof.
  intros H Ht. apply read_loop_Ok in H.
  destruct between_reads_init as [Hb H0].
  destruct (scan_chars_between_reads _ _ _ Hb H) as [[[Hl Hc]|[_ Hz]] Hcl];
    [|contradiction].
  rewrite H0, Z.add_0_l in Hcl. split; congruence.
Qed.

(** Inside a sequence line the hits of the read only grow, and no SNP
  comes twice. *)
Lemma scan_chars_in_sequence (line : list Z) (base hits : list Z) (st st' : Scan) :
cur_line st mod 4 = 1 → NEWLINE ∉ line →
read_hits base st hits →
scan_chars line st = Ok st' →
cur_line st' mod 4 = 1 ∧ ∃ more, read_hits base st' (hits ++ more).
Proof.
revert hits st. induction line as [|ch line IH]; intros hits st Hl Hnl Hr; simpl.
- intros [= <-]. split; [exact Hl|]. by apply read_hits_nil_more.
- intros H. inv_bind H.
  apply not_elem_of_cons in Hnl as [Hch Hnl].
  pose proof (scan_char_cur_line _ _ _ Ha) as Hcl.
  destruct (Z.eqb_spec ch NEWLINE) as [?|_]; [congruence|].
  rewrite Z.add_0_r, Hl in Hcl.
  eapply scan_char_in_sequence in Ha as (_ & _ & Hh); [|exact Hl|congruence].
  destruct (Hh _ _ Hr) as (m1 & Hr1).
  destruct (IH _ _ Hcl Hnl Hr1 H) as (Hl' & m2 & Hr2).
  split; [exact Hl'|]. exists (m1 ++ m2). by rewrite app_assoc.
Qed.

(** C7.  Take any file, and in it the sequence line of any read: [header]
  is all that comes before that line, less the newline that ends it, and
  [line] is the sequence line, or a part of it, up to any character
  before its newline.  What the scanner has added to [kmer_matches] since
  the line began ([hits]) holds no SNP twice, across all tokens of the
  line, and the footprint holds exactly these SNPs: no token boundary
  has cleared it.  The newline of the line may add further hits, again
  none twice, and leaves the footprint empty for the next read. *)
Theorem per_read_dedup (header line : list Z) (st0 stm : Scan) :
scan_chars (header ++ [NEWLINE]) scan_init = Ok st0 →
Z.of_nat (newlines (header ++ [NEWLINE])) mod 4 = 1 →
NEWLINE ∉ line →
scan_chars line st0 = Ok stm →
∃ hits,
  read_hits (kmer_matches st0) stm hits ∧
  ∀ st1, scan_char stm NEWLINE = Ok st1 →
         ∃ more, kmer_matches st1 = kmer_matches st0 ++ hits ++ more ∧
                 NoDup (hits ++ more) ∧ footprint st1 = ∅.
Proof.
intros H0 Hn Hnl Hm.
destruct between_reads_init as [Hb Hi].
destruct (scan_chars_between_reads _ _ _ Hb H0) as [Hb0 Hl0].
rewrite Hi, Z.add_0_l, Hn in Hl0.
assert (Hc0 : c st0 = NEWLINE).
{ rewrite scan_chars_app in H0. inv_bind H0. simpl in H0. inv_bind H0.
  injection H0 as <-. by apply scan_char_position in Ha0 as [_ ?]. }
assert (Hf0 : footprint st0 = ∅).
{ destruct Hb0 as [[_ ?]|[? _]]; [contradiction|assumption]. }
assert (Hr0 : read_hits (kmer_matches st0) st0 []).
{ repeat split.
  - by rewrite app_nil_r.
  - apply NoDup_nil_2.
  - by intros ?%elem_of_nil.
  - rewrite Hf0, lookup_empty. by intros [? ?]. }
destruct (scan_chars_in_sequence _ _ _ _ _ Hl0 Hnl Hr0 Hm) as (Hlm & hits & Hr).
simpl in Hr. exists hits. split; [exact Hr|].
intros st1 H1. apply scan_char_end_of_read in H1 as (_ & _ & Hf & _ & Hh); [|exact Hlm].
destruct (Hh _ _ Hr) as (more & Hk & Hnd). exists more. done.
Qed.

(** A character inside a token of a sequence line: it is stored if there
    is room, and counted. *)
Lemma scan_char_accumulate (st : Scan) (ch : Z) :
  cur_line st mod 4 = 1 → at_token_end ch = false → token_length st ≠ INT_MAX →
  scan_char st ch
  = Ok (mkScan (cur_line st) ch (token_length st + 1)
          (if token_length st <? MAX_TOKEN_LENGTH
           then <[Z.to_nat (token_length st) := ch]> (seq_buf st) else seq_buf st)
          (kmer_matches st) (footprint st)).
Proof.
  intros Hl He Ht. unfold scan_char. fold (cur_line st).
  destruct (Z.eqb_spec (cur_line st mod 4) 1); [cbn [negb]|contradiction].
  unfold at_token_end in He. rewrite He. cbn [negb].
  destruct (Z.eqb_spec (token_length st) INT_MAX); [contradiction|reflexivity].
Qed.

Lemma scan_char_token_length (st st' : Scan) (ch : Z) :
  0 <= token_length st → scan_char st ch = Ok st' → 0 <= token_length st'.
Proof.
  intros H0. unfold scan_char.
  destruct (negb _); [intros [= <-]; exact H0|].
  destruct (negb _).
  - destruct (_ =? INT_MAX); [discriminate|]. intros [= <-]. simpl. lia.
  - intros H. inv_bind H. injection H as <-. simpl. lia.
Qed.

Lemma scan_chars_token_length (input : list Z) (st st' : Scan) :
  0 <= token_length st → scan_chars input st = Ok st' → 0 <= token_length st'.
Proof.
  revert st. induction input as [|ch input IH]; intros st H0; simpl.
  - by intros [= <-].
  - intros H. inv_bind H. eapply IH; [|exact H]. by eapply scan_char_token_length.
Qed.

(** A file that ends inside a sequence line, after a character that does
    not end a token, leaves a token pending. *)
Lemma token_pending_in_sequence_line (reads : list read_result) (st : Scan) (ch : Z) :
  read_loop reads scan_init = Ok st →
  Z.of_nat (newlines (consumed reads)) mod 4 = 1 →
  last (consumed reads) = Some ch → at_token_end ch = false →
  0 < token_length st.
Proof.
  intros Hr Hn Hlast Hch. apply read_loop_Ok in Hr.
  apply last_Some in Hlast as [input Hi]. rewrite Hi in Hr, Hn.
  rewrite scan_chars_app in Hr. inv_bind Hr. simpl in Hr. inv_bind Hr.
  injection Hr as <-.
  assert (Hnl : newlines (input ++ [ch]) = newlines input).
  { clear -Hch. induction input as [|x input IH]; simpl.
    - unfold at_token_end in Hch. destruct (ch =? NEWLINE); [discriminate|reflexivity].
    - by rewrite IH. }
  rewrite Hnl in Hn.
  destruct between_reads_init as [Hb H0].
  destruct (scan_chars_between_reads _ _ _ Hb Ha) as [_ Hcl].
  rewrite H0, Z.add_0_l, Hn in Hcl.
  pose proof (scan_chars_token_length input scan_init a (Z.le_refl 0) Ha) as Hnn.
  destruct (decide (token_length a = INT_MAX)) as [Hmax|Hmax].
  - unfold scan_char in Ha0. fold (cur_line a) in Ha0.
    destruct (Z.eqb_spec (cur_line a mod 4) 1); [cbn [negb] in Ha0|contradiction].
    unfold at_token_end in Hch. rewrite Hch in Ha0. cbn [negb] in Ha0.
    rewrite Hmax, Z.eqb_refl in Ha0. discriminate.
  - rewrite scan_char_accumulate in Ha0 by assumption.
    injection Ha0 as <-. simpl. lia.
Qed.

(** C10.  The check at the end of the file and what can trip it.
    (1) The requested instance is the scan followed by the check: it exits
    with the truncation message exactly when the scan ends with a token
    length other than 0, and goes on to the emission otherwise.
    (2) A character off a sequence line is never stored or counted: the
    token buffer and the token length stay as they are.
    (3) So a token can be pending at the end only inside a sequence line,
    that is when the number of newlines is 1 modulo 4.
    (4) When the last line, whole or cut off, is a header, separator or
    quality line, the scan ends with no token pending and the run is the
    scan followed by the emission, with no truncation error.
    (5) When the file ends inside a sequence line, after a character that
    does not end a token, the run is refused with the truncation
    message. *)
Theorem eof_check_exact (reads : list read_result) :
  kmer_lookup_work M2 M3 lmer_index mmer_bloom kmers_index snps M2 M3 reads
  = (st ← read_loop reads scan_init;
     if token_length st =? 0
     then out ← emit snps (kmer_matches st); Ok (Some out)
     else Err (Exit 1 "Error:  Truncated read sequence at end of file")) ∧
  (∀ st ch, cur_line st mod 4 ≠ 1 →
     ∃ st', scan_char st ch = Ok st' ∧
            token_length st' = token_length st ∧ seq_buf st' = seq_buf st) ∧
  (∀ st, read_loop reads scan_init = Ok st → token_length st ≠ 0 →
     Z.of_nat (newlines (consumed reads)) mod 4 = 1) ∧
  (Z.of_nat (newlines (consumed reads)) mod 4 ≠ 1 →
     (∀ st, read_loop reads scan_init = Ok st → token_length st = 0) ∧
     kmer_lookup_work M2 M3 lmer_index mmer_bloom kmers_index snps M2 M3 reads
     = (st ← read_loop reads scan_init;
        out ← emit snps (kmer_matches st);
        Ok (Some out))) ∧
  (∀ st ch, read_loop reads scan_init = Ok st →
     Z.of_nat (newlines (consumed reads)) mod 4 = 1 →
     last (consumed reads) = Some ch → at_token_end ch = false →
     kmer_lookup_work M2 M3 lmer_index mmer_bloom kmers_index snps M2 M3 reads
     = Err (Exit 1 "Error:  Truncated read sequence at end of file")).
Proof.
  assert (Hcheck :
    kmer_lookup_work M2 M3 lmer_index mmer_bloom kmers_index snps M2 M3 reads
    = (st ← read_loop reads scan_init;
       if token_length st =? 0
       then out ← emit snps (kmer_matches st); Ok (Some out)
       else Err (Exit 1 "Error:  Truncated read sequence at end of file"))).
  { unfold kmer_lookup_work, instance_runs. simpl. rewrite !Z.eqb_refl. simpl.
    destruct (read_loop reads scan_init) as [st|f]; simpl; [|reflexivity].
    destruct (token_length st =? 0); reflexivity. }
  split; [exact Hcheck|].
  split.
  { intros st ch Hl. rewrite scan_char_off_sequence by exact Hl.
    eexists. split; [reflexivity|]. split; reflexivity. }
  split.
  { intros st H Hne. by destruct (token_pending_at_eof _ _ H Hne). }
  split.
  - intros Hn.
    assert (Ht : ∀ st, read_loop reads scan_init = Ok st → token_length st = 0).
    { intros st H. destruct (decide (token_length st = 0)) as [|Hne]; [assumption|].
      destruct (token_pending_at_eof _ _ H Hne). contradiction. }
    split; [exact Ht|]. rewrite Hcheck.
    destruct (read_loop reads scan_init) as [st|f] eqn:Hr; simpl; [|reflexivity].
    rewrite (Ht st eq_refl). reflexivity.
  - intros st ch Hr Hn Hlast Hch.
    pose proof (token_pending_in_sequence_line _ _ _ Hr Hn Hlast Hch) as Hpos.
    rewrite Hcheck, Hr. simpl.
    destruct (Z.eqb_spec (token_length st) 0); [lia|reflexivity].
Qed.
End scanner_facts.

(** A read of two tokens that both hit SNP 0: one hit. *)
Lemma per_read_dedup_witness :
  ∃ st0 stm,
    scan_chars 32 36 (lmer_index index_AAAC) (mmer_bloom index_AAAC)
      (kmer_index index_AAAC) (snps index_AAAC) (bytes "@r" ++ [NEWLINE]) scan_init = Ok st0 ∧
    scan_chars 32 36 (lmer_index index_AAAC) (mmer_bloom index_AAAC)
      (kmer_index index_AAAC) (snps index_AAAC) line_AAAC st0 = Ok stm ∧
    kmer_matches st0 = [] ∧ kmer_matches stm = [0] ∧
    ∃ hits,
      read_hits (kmer_matches st0) stm hits ∧
      ∀ st1, scan_char 32 36 (lmer_index index_AAAC) (mmer_bloom index_AAAC)
               (kmer_index index_AAAC) (snps index_AAAC) stm NEWLINE = Ok st1 →
             ∃ more, kmer_matches st1 = kmer_matches st0 ++ hits ++ more ∧
                     NoDup (hits ++ more) ∧ footprint st1 = ∅.
Proof.
  eexists. eexists.
  split; [vm_compute; reflexivity|].
  split; [vm_compute; reflexivity|].
  split; [reflexivity|]. split; [reflexivity|].
  eapply (per_read_dedup 32 36 (lmer_index index_AAAC) (mmer_bloom index_AAAC)
            (kmer_index index_AAAC) (snps index_AAAC) (bytes "@r") line_AAAC).
  - vm_compute. reflexivity.
  - vm_compute. reflexivity.
  - refine (bool_decide_unpack _ _). vm_compute. exact I.
  - vm_compute. reflexivity.
Defined.

(** A file cut off inside the quality line (three newlines) runs to the
    emission; a file that stops inside its sequence line is refused. *)
Lemma eof_check_exact_witness :
  ((∀ st, read_loop 32 36 (lmer_index index_AAAC) (mmer_bloom index_AAAC)
            (kmer_index index_AAAC) (snps index_AAAC) reads_cut scan_init = Ok st →
          token_length st = 0) ∧
   kmer_lookup_work 32 36 (lmer_index index_AAAC) (mmer_bloom index_AAAC)
     (kmer_index index_AAAC) (snps index_AAAC) 32 36 reads_cut
   = (st ← read_loop 32 36 (lmer_index index_AAAC) (mmer_bloom index_AAAC)
             (kmer_index index_AAAC) (snps index_AAAC) reads_cut scan_init;
      out ← emit (snps index_AAAC) (kmer_matches st);
      Ok (Some out))) ∧
  kmer_lookup_work 32 36 (lmer_index index_AAAC) (mmer_bloom index_AAAC)
    (kmer_index index_AAAC) (snps index_AAAC) 32 36 reads_truncated
  = Err (Exit 1 "Error:  Truncated read sequence at end of file").
Proof.
  split.
  - apply (eof_check_exact 32 36 (lmer_index index_AAAC) (mmer_bloom index_AAAC)
             (kmer_index index_AAAC) (snps index_AAAC) reads_cut).
    vm_compute. discriminate.
  - eapply (eof_check_exact 32 36 (lmer_index index_AAAC) (mmer_bloom index_AAAC)
              (kmer_index index_AAAC) (snps index_AAAC) reads_truncated).
    + vm_compute. reflexivity.
    + vm_compute. reflexivity.
    + vm_compute. reflexivity.
    + vm_compute. reflexivity.
Defined.

(** The cut-off file runs to the end; the file that stops inside its
    sequence line is refused (scenario E). *)
Example kmer_lookup_work_cut_and_truncated :
  is_ok (kmer_lookup_work 32 36 (lmer_index index_AAAC) (mmer_bloom index_AAAC)
           (kmer_index index_AAAC) (snps index_AAAC) 32 36 reads_cut) = true ∧
  kmer_lookup_work 32 36 (lmer_index index_AAAC) (mmer_bloom index_AAAC)
    (kmer_index index_AAAC) (snps index_AAAC) 32 36 reads_truncated
  = Err (Exit 1 "Error:  Truncated read sequence at end of file").
Proof. split; vm_compute; reflexivity. Qed.

(** ** Sequence codec *)

Lemma is_base_code (ch : Z) :
  is_base ch = true →
  code_dict ch = Ok (code_dict_entry ch) ∧ 0 <= code_dict_entry ch <= 3.
Proof.
  unfold is_base. intros H%bool_decide_eq_true.
  vm_compute in H. 
  repeat (apply elem_of_cons in H as [->|H]; [vm_compute; split; [reflexivity|split; discriminate]|]).
  by apply elem_of_nil in H.
Qed.

Lemma code_dict_accepts (ch b_code : Z) :
  code_dict ch = Ok b_code → Z.land b_code 252 = 0 → is_base ch = true.
Proof.
  unfold code_dict, code_dict_entry, is_base.
  destruct (_ && _); [|discriminate].
  repeat match goal with
         | |- context [ch =? ?k] => destruct (Z.eqb_spec ch k) as [->|?]
         end; simpl; intros [= <-] Hl; try reflexivity; discriminate Hl.
Qed.

Lemma chars_read_step (len bitpos : Z) :
  bitpos < len → chars_read len bitpos = S (chars_read len (bitpos + BITS_PER_BASE)).
Proof.
  intros H. unfold chars_read, BITS_PER_BASE.
  replace (len - bitpos + 1) with ((len - (bitpos + 2) + 1) + 1 * 2) by lia.
  rewrite Z.div_add by lia.
  assert (0 <= (len - (bitpos + 2) + 1) / 2) by (apply Z.div_pos; lia).
  lia.
Qed.

Lemma chars_read_done (len bitpos : Z) : len <= bitpos → chars_read len bitpos = 0%nat.
Proof.
  intros H. unfold chars_read.
  assert ((len - bitpos + 1) / 2 < 1); [|lia].
  apply Z.div_lt_upper_bound; lia.
Qed.

Lemma seq_encode_is_ok (len : Z) (buf : list Z) :
  is_ok (seq_encode len buf) = true ↔
  (chars_read len 0 ≤ length buf)%nat ∧
  Forall (λ ch, is_base ch = true) (take (chars_read len 0) buf).
Proof.
  unfold seq_encode. generalize 0 at 1 3 4 as bitpos. generalize 0 as seq_code.
  induction buf as [|ch buf IH]; intros seq_code bitpos; simpl.
  - destruct (Z.ltb_spec bitpos len) as [Hlt|Hge].
    + rewrite chars_read_step by exact Hlt. simpl. split; [discriminate|lia].
    + rewrite chars_read_done by exact Hge. simpl. split; [intros _; split; [lia|constructor]|done].
  - destruct (Z.ltb_spec bitpos len) as [Hlt|Hge].
    + rewrite chars_read_step by exact Hlt. simpl.
      destruct (code_dict ch) as [b_code|f] eqn:Hc; simpl.
      * destruct (Z.eqb_spec (Z.land b_code 252) 0) as [Hl|Hl]; simpl.
        -- rewrite IH. pose proof (code_dict_accepts _ _ Hc Hl) as Hb.
           split.
           ++ intros [? ?]. split; [lia|]. by constructor.
           ++ intros [? HF]. apply Forall_cons in HF as [_ HF]. split; [lia|exact HF].
        -- split; [discriminate|]. intros [_ HF]. apply Forall_cons in HF as [Hb _].
           apply is_base_code in Hb as [Hb Hr]. rewrite Hb in Hc. injection Hc as <-.
           exfalso. apply Hl.
           assert (Hcases : code_dict_entry ch = 0 ∨ code_dict_entry ch = 1 ∨
                            code_dict_entry ch = 2 ∨ code_dict_entry ch = 3) by lia.
           destruct Hcases as [->|[->|[->| ->]]]; reflexivity.
      * split; [discriminate|]. intros [_ HF]. apply Forall_cons in HF as [Hb _].
        apply is_base_code in Hb as [Hb _]. congruence.
    + rewrite chars_read_done by exact Hge. simpl.
      split; [intros _; split; [lia|constructor]|done].
Qed.


Lemma lor_disjoint_add (a b n : Z) :
  0 <= n → 0 <= a < 2 ^ n → 0 <= b → Z.lor a (b * 2 ^ n) = a + b * 2 ^ n.
Proof.
  intros Hn Ha Hb.
  assert (Hl : Z.land a (b * 2 ^ n) = 0).
  { apply Z.bits_inj'. intros i Hi. rewrite Z.land_spec, Z.bits_0.
    destruct (Z.ltb_spec i n).
    - rewrite Z.mul_pow2_bits_low by lia. apply andb_false_r.
    - destruct (Z.eq_dec a 0) as [->|Hne]; [by rewrite Z.bits_0|].
      rewrite (Z.bits_above_log2 a i); [reflexivity|lia|].
      assert (Z.log2 a < n) by (apply Z.log2_lt_pow2; lia). lia. }
  rewrite Z.add_nocarry_lxor by exact Hl. symmetry. by apply Z.lxor_lor.
Qed.

Lemma pack_bounds (codes : list Z) :
  Forall (λ b, 0 <= b <= 3) codes →
  0 <= pack codes < 2 ^ (2 * Z.of_nat (length codes)).
Proof.
  induction 1 as [|b codes Hb _ IH]; simpl pack; [simpl; lia|].
  replace (2 * Z.of_nat (length (b :: codes))) with (2 + 2 * Z.of_nat (length codes))
    by (simpl length; lia).
  rewrite Z.pow_add_r by lia. lia.
Qed.

Lemma pack_digit (codes : list Z) (i : nat) (b : Z) :
  Forall (λ b, 0 <= b <= 3) codes → codes !! i = Some b →
  Z.land (Z.shiftr (pack codes) (2 * Z.of_nat i)) 3 = b.
Proof.
  intros HF. revert i. induction HF as [|b0 codes Hb HF IH]; intros i Hi; [done|].
  change 3 with (Z.ones 2). rewrite Z.land_ones, Z.shiftr_div_pow2 by lia.
  pose proof (pack_bounds codes HF) as Hp.
  destruct i as [|i]; simpl in Hi.
  - injection Hi as ->. simpl pack. change (2 ^ (2 * Z.of_nat 0)) with 1.
    rewrite Z.div_1_r. change (2 ^ 2) with 4.
    replace (b + 4 * pack codes) with (b + pack codes * 4) by lia.
    rewrite Z.mod_add by lia. apply Z.mod_small. lia.
  - specialize (IH i Hi). change 3 with (Z.ones 2) in IH.
    rewrite Z.land_ones, Z.shiftr_div_pow2 in IH by lia.
    rewrite <- IH. f_equal. simpl pack.
    replace (2 * Z.of_nat (S i)) with (2 + 2 * Z.of_nat i) by lia.
    rewrite Z.pow_add_r by lia. change (2 ^ 2) with 4.
    rewrite <- Z.div_div by lia. f_equal.
    replace (b0 + 4 * pack codes) with (b0 + pack codes * 4) by lia.
    rewrite Z.div_add by lia. rewrite (Z.div_small b0 4) by lia. lia.
Qed.

(** The code is the sum of the two-bit codes of the characters read, the
    first at the lowest position. *)
Lemma seq_encode_from_pack (buf : list Z) (len bitpos seq_code v : Z) :
  0 <= bitpos → bitpos mod 2 = 0 → len <= 64 → 0 <= seq_code < 2 ^ bitpos →
  seq_encode_from len bitpos buf seq_code = Ok v →
  Forall (λ ch, is_base ch = true) (take (chars_read len bitpos) buf) ∧
  v = seq_code + 2 ^ bitpos * pack (code_dict_entry <$> take (chars_read len bitpos) buf).
Proof.
  revert bitpos seq_code. induction buf as [|ch buf IH]; intros bitpos acc Hb He Hl Ha; simpl.
  - destruct (Z.ltb_spec bitpos len); [discriminate|]. intros [= <-].
    rewrite take_nil. simpl. split; [constructor|lia].
  - destruct (Z.ltb_spec bitpos len) as [Hlt|Hge].
    + rewrite chars_read_step by exact Hlt. intros H. inv_bind H. inv_assert H.
      apply Z.eqb_eq in Hassert.
      pose proof (code_dict_accepts _ _ Ha0 Hassert) as Hbase.
      destruct (is_base_code _ Hbase) as [Hcd Hr]. rewrite Hcd in Ha0. injection Ha0 as <-.
      unfold BITS_PER_BASE in *.
      assert (bitpos <= 62).
      { assert (bitpos <> 63); [|lia]. intros ->. discriminate He. }
      assert (Hs : shl64 (code_dict_entry ch) bitpos = code_dict_entry ch * 2 ^ bitpos).
      { unfold shl64. rewrite Z.shiftl_mul_pow2 by lia. apply wrap64_small.
        assert (2 ^ bitpos * 4 <= 2 ^ 64).
        { change 4 with (2 ^ 2). rewrite <- Z.pow_add_r by lia.
          apply Z.pow_le_mono_r; lia. }
        nia. }
      rewrite Hs, lor_disjoint_add in H by lia.
      apply IH in H as [HF ->]; try lia.
      * simpl. split; [by constructor|].
        replace (bitpos + 2) with (2 + bitpos) by lia.
        rewrite Z.pow_add_r by lia. change (2 ^ 2) with 4.
        change (list_fmap Z Z code_dict_entry) with (fmap (M:=list) code_dict_entry). ring.
      * rewrite <- Z.add_mod_idemp_l, He by lia. reflexivity.
      * replace (bitpos + 2) with (2 + bitpos) by lia.
        rewrite Z.pow_add_r by lia. change (2 ^ 2) with 4. nia.
    + rewrite chars_read_done by exact Hge. intros [= <-]. simpl.
      split; [constructor|lia].
Qed.

(** X2.  The layout: the character at position [i] of the buffer ends up
    in bits [2i] and [2i + 1] of the code, as 0, 1, 2, 3 for A, C, G, T in
    either case. *)
Theorem seq_encode_layout (len : Z) (buf : list Z) (v : Z) (i : nat) (ch : Z) :
  seq_encode len buf = Ok v → len <= 64 → 2 * Z.of_nat i < len →
  buf !! i = Some ch →
  Z.land (Z.shiftr v (2 * Z.of_nat i)) 3 = code_dict_entry ch.
Proof.
  intros H Hl Hi Hch. unfold seq_encode in H.
  apply seq_encode_from_pack in H as [HF ->]; [|lia|reflexivity|lia|simpl; lia].
  change (2 ^ 0) with 1. rewrite Z.add_0_l, Z.mul_1_l.
  apply pack_digit.
  - apply Forall_fmap. eapply Forall_impl; [exact HF|].
    intros c Hc. by apply is_base_code in Hc as [_ ?].
  - rewrite list_lookup_fmap, lookup_take_lt, Hch; [reflexivity|].
    unfold chars_read. rewrite Z.sub_0_r.
    assert (Z.of_nat i + 1 <= (len + 1) / 2); [|lia].
    apply Z.div_le_lower_bound; lia.
Qed.

Lemma seq_encode_layout_witness :
  seq_encode K (bytes read_C) = Ok 1 ∧
  Z.land (Z.shiftr 1 (2 * Z.of_nat 0)) 3 = code_dict_entry (chr "C").
Proof.
  split; [reflexivity|].
  apply (seq_encode_layout K (bytes read_C) 1 0 (chr "C"));
    [reflexivity|unfold K; lia|unfold K; simpl; lia|reflexivity].
Defined.

Lemma seq_encode_below (len : Z) (buf : list Z) (v : Z) :
  seq_encode len buf = Ok v → len <= 64 →
  0 <= v < 2 ^ (2 * Z.of_nat (chars_read len 0)).
Proof.
  intros H Hl. pose proof (proj1 (seq_encode_is_ok len buf)) as Hok.
  rewrite H in Hok. destruct (Hok eq_refl) as [Hlen _].
  unfold seq_encode in H.
  apply seq_encode_from_pack in H as [HF ->]; [|lia|reflexivity|lia|simpl; lia].
  change (2 ^ 0) with 1. rewrite Z.add_0_l, Z.mul_1_l.
  match goal with |- context [pack ?l] => pose proof (pack_bounds l) as Hp end.
  rewrite length_fmap, length_take, Nat.min_l in Hp by exact Hlen.
  apply Hp. apply Forall_fmap. eapply Forall_impl; [exact HF|].
  intros c Hc. by apply is_base_code in Hc as [_ ?].
Qed.

(** X3.  The code has as many bits as were read: two for every character,
    so [seq_encode<K>] with [K = 31], which reads 16 characters, stays
    below [2^32]. *)
Theorem seq_encode_bound (len : Z) (buf : list Z) (v : Z) :
  seq_encode len buf = Ok v → len <= 64 →
  0 <= v < 2 ^ (2 * Z.of_nat (chars_read len 0)).
Proof. exact (seq_encode_below len buf v). Qed.

Lemma seq_encode_bound_witness :
  seq_encode K (bytes read_C) = Ok 1 ∧ 0 <= 1 < 2 ^ (2 * Z.of_nat (chars_read K 0)).
Proof.
  split; [reflexivity|].
  apply (seq_encode_bound K (bytes read_C) 1); [reflexivity|unfold K; lia].
Defined.

Lemma seq_encode_K_bound (buf : list Z) (kmer : Z) :
  seq_encode K buf = Ok kmer → 0 <= kmer < 2 ^ 32.
Proof. intros H. apply seq_encode_below in H; [exact H|unfold K; lia]. Qed.

(** ** Scanner: the lmer of a window *)

Section scanner_lmer.
Variables M2 M3 : Z.
Variables lmer_index lmer_index' mmer_bloom : Table.
Variable kmers_index : list Z.
Variable snps : list SNPRepr.
Hypothesis M2_ge_32 : 32 <= M2.
Hypothesis same_cell_0 : t_read lmer_index 0 = t_read lmer_index' 0.

Lemma lookup_window_cell_0 (j : Z) (st : Scan) :
  lookup_window M2 M3 lmer_index mmer_bloom kmers_index snps j st
  = lookup_window M2 M3 lmer_index' mmer_bloom kmers_index snps j st.
Proof.
  unfold lookup_window.
  destruct (bloom_lookup M3 mmer_bloom (seq_buf st) j) as [mpres|f]; simpl; [|reflexivity].
  destruct (Z.land mpres 1 =? 1); [|reflexivity].
  destruct (seq_encode K (from (seq_buf st) j)) as [kmer|f] eqn:He; simpl; [|reflexivity].
  apply seq_encode_K_bound in He.
  assert (Hz : wrap32 (Z.shiftr kmer M2) = 0).
  { rewrite Z.shiftr_div_pow2 by lia.
    rewrite Z.div_small; [reflexivity|]. split; [lia|].
    assert (2 ^ 32 <= 2 ^ M2) by (apply Z.pow_le_mono_r; lia). lia. }
  rewrite Hz, same_cell_0. reflexivity.
Qed.

Lemma lookup_windows_cell_0 (js : list Z) (st : Scan) :
  lookup_windows M2 M3 lmer_index mmer_bloom kmers_index snps js st
  = lookup_windows M2 M3 lmer_index' mmer_bloom kmers_index snps js st.
Proof.
  revert st. induction js as [|j js IH]; intros st; simpl; [reflexivity|].
  rewrite lookup_window_cell_0.
  destruct (lookup_window _ _ _ _ _ _ _ _); simpl; [apply IH|reflexivity].
Qed.

Lemma scan_char_cell_0 (st : Scan) (ch : Z) :
  scan_char M2 M3 lmer_index mmer_bloom kmers_index snps st ch
  = scan_char M2 M3 lmer_index' mmer_bloom kmers_index snps st ch.
Proof.
  unfold scan_char, process_token. rewrite lookup_windows_cell_0. reflexivity.
Qed.

Lemma scan_chars_cell_0 (input : list Z) (st : Scan) :
  scan_chars M2 M3 lmer_index mmer_bloom kmers_index snps input st
  = scan_chars M2 M3 lmer_index' mmer_bloom kmers_index snps input st.
Proof.
  revert st. induction input as [|ch input IH]; intros st; simpl; [reflexivity|].
  rewrite scan_char_cell_0.
  destruct (scan_char _ _ _ _ _ _ _ _); simpl; [apply IH|reflexivity].
Qed.

Lemma read_loop_cell_0 (reads : list read_result) (st : Scan) :
  read_loop M2 M3 lmer_index mmer_bloom kmers_index snps reads st
  = read_loop M2 M3 lmer_index' mmer_bloom kmers_index snps reads st.
Proof.
  revert st. induction reads as [|[w|] reads IH]; intros st; simpl; try reflexivity.
  case_bool_decide; [reflexivity|]. rewrite scan_chars_cell_0.
  destruct (scan_chars _ _ _ _ _ _ _ _); simpl; [apply IH|reflexivity].
Qed.

(** X4.  The kmer of a window has 32 bits, so with [M2] at 32 or more, as
    in every instance of the scanner, its lmer is 0: of the whole
    [lmer_index] the scanner reads cell 0 and nothing else.  Two tables
    that agree there give the same run. *)
Theorem scanner_reads_lmer_cell_0 (aM2 aM3 : Z) (reads : list read_result) :
  kmer_lookup_work M2 M3 lmer_index mmer_bloom kmers_index snps aM2 aM3 reads
  = kmer_lookup_work M2 M3 lmer_index' mmer_bloom kmers_index snps aM2 aM3 reads.
Proof. unfold kmer_lookup_work. rewrite read_loop_cell_0. reflexivity. Qed.
End scanner_lmer.

Lemma scanner_reads_lmer_cell_0_witness :
  t_read (lmer_index index_AAAC) 0 = t_read lmer_index_other 0 ∧
  t_read (lmer_index index_AAAC) 5 ≠ t_read lmer_index_other 5 ∧
  kmer_lookup_work 32 36 (lmer_index index_AAAC) (mmer_bloom index_AAAC)
    (kmer_index index_AAAC) (snps index_AAAC) 32 36 reads_cut
  = kmer_lookup_work 32 36 lmer_index_other (mmer_bloom index_AAAC)
      (kmer_index index_AAAC) (snps index_AAAC) 32 36 reads_cut.
Proof.
  split; [reflexivity|]. split; [discriminate|].
  apply scanner_reads_lmer_cell_0; [lia|reflexivity].
Defined.

(** ** Scanner: tokens, chunks, end of file *)

Section scanner_more.
Variables M2 M3 : Z.
Variables lmer_index mmer_bloom : Table.
Variable kmers_index : list Z.
Variable snps : list SNPRepr.

Local Abbreviation scan_char := (scan_char M2 M3 lmer_index mmer_bloom kmers_index snps).
Local Abbreviation scan_chars := (scan_chars M2 M3 lmer_index mmer_bloom kmers_index snps).
Local Abbreviation read_loop := (read_loop M2 M3 lmer_index mmer_bloom kmers_index snps).

(** The end of a token that is too short or too long: nothing is looked
    up. *)
Lemma scan_char_drop_token (st : Scan) (ch : Z) :
  cur_line st mod 4 = 1 → at_token_end ch = true →
  token_length st < MIN_TOKEN_LENGTH ∨ MAX_TOKEN_LENGTH < token_length st →
  scan_char st ch
  = Ok (mkScan (cur_line st) ch 0 (seq_buf st) (kmer_matches st)
          (if ch =? NEWLINE then ∅ else footprint st)).
Proof.
  intros Hl He Ht. unfold scan_char. fold (cur_line st).
  destruct (Z.eqb_spec (cur_line st mod 4) 1); [cbn [negb]|contradiction].
  unfold at_token_end in He. rewrite He. cbn [negb].
  assert (Hb : (MIN_TOKEN_LENGTH <=? token_length st)
               && (token_length st <=? MAX_TOKEN_LENGTH) = false).
  { destruct (Z.leb_spec MIN_TOKEN_LENGTH (token_length st));
      destruct (Z.leb_spec (token_length st) MAX_TOKEN_LENGTH); simpl; lia. }
  cbv zeta. cbn [token_length]. rewrite Hb. reflexivity.
Qed.

Lemma scan_chars_accumulate (tok : list Z) (st : Scan) :
  cur_line st mod 4 = 1 → Forall (λ ch, at_token_end ch = false) tok →
  0 <= token_length st → token_length st + Z.of_nat (length tok) <= INT_MAX →
  ∃ st', scan_chars tok st = Ok st' ∧
         cur_line st' mod 4 = 1 ∧
         token_length st' = token_length st + Z.of_nat (length tok) ∧
         kmer_matches st' = kmer_matches st ∧ footprint st' = footprint st.
Proof.
  revert st. induction tok as [|ch tok IH]; intros st Hl HF H0 Hmax; simpl.
  - exists st. repeat split; auto. lia.
  - apply Forall_cons in HF as [Hch HF]. simpl length in Hmax.
    rewrite scan_char_accumulate by (auto; lia). simpl.
    match goal with |- context [scan_chars tok ?s] => destruct (IH s) as (st' & Hs & ? & Ht & ? & ?) end.
    + unfold cur_line. simpl. unfold at_token_end in Hch.
      destruct (ch =? NEWLINE); [discriminate|]. exact Hl.
    + exact HF.
    + simpl. lia.
    + simpl. lia.
    + exists st'. simpl in *. repeat split; auto. lia.
Qed.

(** X5.  A token is looked up only when it has 31 to 500 characters.  A
    shorter one, and a longer one too, is dropped whole at its end: whatever
    its characters are, the scan goes on without a failure and without a
    hit, and only the newline empties the footprint. *)
Theorem token_out_of_bounds_is_dropped (st : Scan) (tok : list Z) (e : Z) :
  cur_line st mod 4 = 1 → token_length st = 0 →
  Forall (λ ch, at_token_end ch = false) tok → at_token_end e = true →
  Z.of_nat (length tok) < MIN_TOKEN_LENGTH ∨
    MAX_TOKEN_LENGTH < Z.of_nat (length tok) <= INT_MAX →
  ∃ st', scan_chars (tok ++ [e]) st = Ok st' ∧
         kmer_matches st' = kmer_matches st ∧ token_length st' = 0 ∧
         footprint st' = if e =? NEWLINE then ∅ else footprint st.
Proof.
  intros Hl H0 HF He Hlen.
  destruct (scan_chars_accumulate tok st Hl HF) as (stm & Hs & Hlm & Ht & Hk & Hf).
  { lia. } { unfold MIN_TOKEN_LENGTH, MAX_TOKEN_LENGTH, INT_MAX in *. lia. }
  rewrite scan_chars_app, Hs. simpl.
  rewrite scan_char_drop_token by (auto; lia). simpl.
  eexists. split; [reflexivity|]. simpl. rewrite Hk, Hf. auto.
Qed.

(** Chunks that hold something are scanned as if they were one. *)
Lemma read_loop_concat (ws : list (list Z)) (st : Scan) :
  Forall (λ w, w ≠ []) ws →
  read_loop (Bytes <$> ws) st = scan_chars (concat ws) st.
Proof.
  revert st. induction ws as [|w ws IH]; intros st HF; simpl; [reflexivity|].
  apply Forall_cons in HF as [Hw HF].
  rewrite bool_decide_eq_false_2 by exact Hw.
  rewrite scan_chars_app.
  destruct (scan_chars w st); simpl; [by apply IH|reflexivity].
Qed.

(** X6.  How [read] cuts the file into chunks does not show: two ways of
    cutting the same bytes give the same scan. *)
Theorem read_loop_chunking (ws ws' : list (list Z)) (st : Scan) :
  Forall (λ w, w ≠ []) ws → Forall (λ w, w ≠ []) ws' → concat ws = concat ws' →
  read_loop (Bytes <$> ws) st = read_loop (Bytes <$> ws') st.
Proof. intros H H' He. by rewrite !read_loop_concat, He. Qed.









End scanner_more.

Lemma token_out_of_bounds_is_dropped_witness :
  ∃ st', scan_chars 32 36 (lmer_index index_AAAC) (mmer_bloom index_AAAC)
           (kmer_index index_AAAC) (snps index_AAAC)
           (bytes "ACGT" ++ [NEWLINE]) scan_after_header = Ok st' ∧
         kmer_matches st' = kmer_matches scan_after_header ∧ token_length st' = 0 ∧
         footprint st' = if NEWLINE =? NEWLINE then ∅ else footprint scan_after_header.
Proof.
  apply token_out_of_bounds_is_dropped;
    [reflexivity|reflexivity|by repeat constructor|reflexivity|].
  left. vm_compute. reflexivity.
Defined.

Lemma read_loop_chunking_witness :
  read_loop 32 36 (lmer_index index_AAAC) (mmer_bloom index_AAAC)
    (kmer_index index_AAAC) (snps index_AAAC)
    (Bytes <$> [lines ["@r"%string]; bytes "ACGT"]) scan_init
  = read_loop 32 36 (lmer_index index_AAAC) (mmer_bloom index_AAAC)
      (kmer_index index_AAAC) (snps index_AAAC)
      (Bytes <$> [bytes "@r"; NEWLINE :: bytes "AC"; bytes "GT"]) scan_init.
Proof.
  apply read_loop_chunking; [by repeat constructor|by repeat constructor|reflexivity].
Defined.

(** ** Scanner: the chain of instances *)

Lemma kmer_lookup_chain_member (insts : list (Z * Z)) (lmer_index mmer_bloom : Table)
    (kmers_index : list Z) (snps : list SNPRepr) (M2 M3 : Z) (reads : list read_result) :
  (M2, M3) ∈ insts →
  kmer_lookup_chain insts lmer_index mmer_bloom kmers_index snps M2 M3 reads
  = kmer_lookup_work M2 M3 lmer_index mmer_bloom kmers_index snps M2 M3 reads.
Proof.
  induction insts as [|[m2 m3] insts IH]; intros Hin; [by apply elem_of_nil in Hin|].
  simpl. destruct (decide ((m2, m3) = (M2, M3))) as [[= -> ->]|Hne].
  - unfold kmer_lookup_work, instance_runs. simpl. rewrite !Z.eqb_refl. simpl.
    destruct (read_loop _ _ _ _ _ _ _ _); simpl; [|reflexivity].
    destruct (negb _); simpl; [reflexivity|].
    destruct (emit _ _); reflexivity.
  - apply elem_of_cons in Hin as [Heq|Hin]; [congruence|].
    rewrite (kmer_lookup_work_skip _ _ _ _ _ _ _ (m2, m3)); [simpl; by apply IH|].
    unfold instance_runs. simpl.
    destruct (Z.eqb_spec M2 m2) as [->|?]; [|reflexivity].
    destruct (Z.eqb_spec M3 m3) as [->|?]; [congruence|reflexivity].
Qed.

(** X8.  For a pair [(M2, M3)] that has an instance, [kmer_lookup] is the
    run of that instance and of no other: its output, or its failure. *)
Theorem kmer_lookup_runs_the_instance (lmer_index mmer_bloom : Table)
    (kmers_index : list Z) (snps : list SNPRepr) (M2 M3 : Z) (reads : list read_result) :
  (M2, M3) ∈ instances →
  kmer_lookup lmer_index mmer_bloom kmers_index snps M2 M3 reads
  = (st ← read_loop M2 M3 lmer_index mmer_bloom kmers_index snps reads scan_init;
     if negb (token_length st =? 0)
     then Err (Exit 1 "Error:  Truncated read sequence at end of file")
     else emit snps (kmer_matches st)).
Proof.
  intros Hin. unfold kmer_lookup. rewrite kmer_lookup_chain_member by exact Hin.
  unfold kmer_lookup_work, instance_runs. simpl. rewrite !Z.eqb_refl. simpl.
  destruct (read_loop _ _ _ _ _ _ _ _); simpl; [|reflexivity].
  destruct (negb _); simpl; [reflexivity|].
  destruct (emit _ _); reflexivity.
Qed.

Lemma kmer_lookup_runs_the_instance_witness :
  kmer_lookup (lmer_index index_AAAC) (mmer_bloom index_AAAC) (kmer_index index_AAAC)
    (snps index_AAAC) 32 36 reads_cut
  = (st ← read_loop 32 36 (lmer_index index_AAAC) (mmer_bloom index_AAAC)
            (kmer_index index_AAAC) (snps index_AAAC) reads_cut scan_init;
     if negb (token_length st =? 0)
     then Err (Exit 1 "Error:  Truncated read sequence at end of file")
     else emit (snps index_AAAC) (kmer_matches st)).
Proof.
  apply kmer_lookup_runs_the_instance. vm_compute. repeat constructor.
Defined.

(** ** Scanner: what the emission writes *)



Lemma occurrences_bounds (x : Z) (l : list Z) :
  0 <= occurrences x l <= Z.of_nat (length l).
Proof.
  unfold occurrences. pose proof (count_occ_bound Z.eq_dec x l). lia.
Qed.





(** ** Index store: saving, reopening, closing *)



(** X11.  Closing a store that was just opened fails in one case only: the
    file was there with the right size and could be opened, and [mmap]
    refused it.  The store then asks for a rebuild, and its destructor
    stops the process at [assert(mmapped_data)]. *)
Theorem destroy_after_open {E} (T : ElementType E) (bf : BackingFile E)
    (preload needs_build : bool) (n : Z) (ix : DBIndex E) :
  mmap_or_load T bf preload (DBIndex_new n) = Ok (needs_build, ix) →
  destroy 0 ix =
    if negb preload && negb (get_fsize bf =? 0) && negb (bf_fd bf =? -1)
       && negb (bf_mmap bf)
    then Err (AssertFailed "mmapped_data") else Ok tt.
Proof.
  unfold mmap_or_load, DBIndex_new. simpl. intros H.
  destruct (Z.eqb_spec (get_fsize bf) 0) as [Hz|Hz]; simpl in H.
  { injection H as <- <-. rewrite !andb_false_r. reflexivity. }
  destruct (get_fsize bf =? wrap64 _); simpl in H; [|discriminate].
  destruct preload; simpl.
  - unfold load in H. simpl in H.
    destruct (bf_fd bf =? -1); simpl in H; [by injection H as <- <-|].
    unfold address in H. simpl in H.
    destruct (0 <? _); simpl in H; [|discriminate].
    destruct (bool_decide _ || false); simpl in H; by injection H as <- <-.
  - unfold MMAP in H. simpl in H.
    destruct (Z.eqb_spec (bf_fd bf) (-1)) as [Hfd|Hfd]; simpl in H.
    { injection H as <- <-. unfold destroy. simpl. rewrite Hfd. reflexivity. }
    destruct (bf_mmap bf); simpl in H; injection H as <- <-; unfold destroy; simpl;
      destruct (Z.eqb_spec (bf_fd bf) (-1)); try contradiction; reflexivity.
Qed.

Lemma destroy_after_open_witness :
  mmap_or_load uint64_t (file_holding uint64_t [7; 8; 9] 3 false None) false (DBIndex_new 3)
  = Ok (true, mkDBIndex false [0; 0; 0] None 3 3 24) ∧
  destroy 0 (mkDBIndex false [0; 0; 0] None 3 3 24) = Err (AssertFailed "mmapped_data").
Proof.
  split; [reflexivity|].
  apply (destroy_after_open uint64_t (file_holding uint64_t [7; 8; 9] 3 false None)
           false true 3).
  reflexivity.
Defined.

(** ** DB optimizer: the redundant base *)

Lemma bind_Err_inv {A B} (k : A → res B) (m : res A) (f : failure) :
  (m ≫= k) = Err f → m = Err f ∨ ∃ a, m = Ok a ∧ k a = Err f.
Proof. destruct m as [a|g]; simpl; [eauto|intros [= ->]; by left]. Qed.

Lemma assert_Err_inv (b : bool) (what : string) (f : failure) :
  assert b what = Err f → b = false ∧ f = AssertFailed what.
Proof. destruct b; [discriminate|]. by intros [= <-]. Qed.

Lemma read_Err_inv {A} (l : list A) (i : Z) (f : failure) :
  read l i = Err f → f = MemFault.
Proof. unfold read. repeat case_match; congruence. Qed.

Lemma snp_base_twice (kmer offset : Z) :
  0 <= offset < 31 →
  Z.shiftr (shl64 kmer (62 - offset * BITS_PER_BASE)) 62
  = Z.land (Z.shiftr kmer (offset * BITS_PER_BASE)) 3.
Proof.
  intros Ho. unfold shl64, wrap64, BITS_PER_BASE.
  apply Z.bits_inj'. intros i Hi.
  rewrite Z.shiftr_spec, Z.land_spec, Z.shiftr_spec by lia.
  change 3 with (Z.ones 2). rewrite Z.testbit_ones by lia.
  destruct (Z.leb_spec 0 i) as [_|?]; [simpl|lia].
  destruct (Z.ltb_spec i 2).
  - rewrite Z.mod_pow2_bits_low, Z.shiftl_spec, andb_true_r by lia. f_equal. lia.
  - rewrite Z.mod_pow2_bits_high, andb_false_r by lia. reflexivity.
Qed.

(** X12.  The assertion of line 684 is dead: whatever the record and the
    state, [build_snp] never stops there, because the two bits it compares
    are the same two bits of the kmer. *)
Theorem build_snp_redundancy_never_fails (kmer snp_with_offset : Z) (st : Build) :
  build_snp kmer snp_with_offset st
  ≠ Err (AssertFailed "SNP position differs in two supposedly redundant representations.").
Proof.
  unfold build_snp. intros H.
  destruct (snps_map st !! Z.shiftr snp_with_offset 8) as [snp_id|].
  all: apply bind_Err_inv in H as [H|(u1 & Ho & H)];
         [apply assert_Err_inv in H as [_ [=]]|].
  all: apply assert_Ok_inv in Ho.
  all: apply bind_Err_inv in H as [H|(u2 & _ & H)];
         [apply assert_Err_inv in H as [_ [=]]|].
  all: apply bind_Err_inv in H as [H|(snp_repr & _ & H)];
         [apply read_Err_inv in H; discriminate|].
  all: apply bind_Err_inv in H as [H|(known & _ & H)];
         [apply read_Err_inv in H; discriminate|].
  all: apply bind_Err_inv in H as [H|(u3 & _ & H)].
  all: try (apply assert_Err_inv in H as [H _];
            rewrite snp_base_twice, Z.eqb_refl in H; [discriminate|];
            apply andb_prop in Ho as [[?%Z.leb_le ?%Z.ltb_lt]%andb_prop _];
            unfold K in *; lia).
  all: apply bind_Err_inv in H as [H|(u4 & _ & H)];
         [apply assert_Err_inv in H as [_ [=]]|].
  all: apply bind_Err_inv in H as [H|(u5 & _ & H)];
         [apply assert_Err_inv in H as [_ [=]]|discriminate].
Qed.

(** ** DB optimizer: what each part of a turn touches *)

Lemma build_bloom_frame (P : Params) (kmer : Z) (st st' : Build) :
  build_bloom P kmer st = Ok st' →
  snps st' = snps st ∧ kmer_index st' = kmer_index st ∧ lmer_index st' = lmer_index st ∧
  snps_map st' = snps_map st ∧ snps_known_bits st' = snps_known_bits st.
Proof.
  unfold build_bloom. intros H. inv_bind H. inv_bind H. injection H as <-. done.
Qed.

Lemma build_lmer_frame (P : Params) (end_ lmer : Z) (st st' : Build) :
  build_lmer P end_ lmer st = Ok st' →
  snps st' = snps st ∧ kmer_index st' = kmer_index st ∧ mmer_bloom st' = mmer_bloom st ∧
  snps_map st' = snps_map st ∧ snps_known_bits st' = snps_known_bits st.
Proof.
  unfold build_lmer. destruct (_ && _); intros H;
    inv_assert H; inv_assert H; inv_assert H; inv_bind H; injection H as <-; done.
Qed.

(** What [build_snp] does to the tables of SNPs: either the coordinate was
    known and its record is updated in place, or it is new and gets the
    next id. *)
Lemma build_snp_cases (kmer snp_with_offset : Z) (st st' : Build) :
  build_snp kmer snp_with_offset st = Ok st' →
  let snp := Z.shiftr snp_with_offset 8 in
  let offset := Z.land snp_with_offset 255 in
  let low_bits := shl64 kmer (62 - offset * BITS_PER_BASE) in
  let high_bits := Z.shiftr kmer (offset * BITS_PER_BASE) in
  mmer_bloom st' = mmer_bloom st ∧ lmer_index st' = lmer_index st ∧
  0 <= offset < 31 ∧
  ∃ snp_id snps1 known1 snp_repr known,
    (snps_map st !! snp = Some snp_id ∧ snps_map st' = snps_map st ∧
     snps1 = snps st ∧ known1 = snps_known_bits st
     ∨
     snps_map st !! snp = None ∧ snp_id = wrap32 (Z.of_nat (size (snps_map st))) ∧
     snps_map st' = <[snp := snp_id]> (snps_map st) ∧
     snps1 = snps st ++ [(0, 0, snp)] ∧ known1 = snps_known_bits st ++ [(0, 0)]) ∧
    snp_id < 2 ^ 27 ∧
    read snps1 snp_id = Ok snp_repr ∧ read known1 snp_id = Ok known ∧
    snps st' = <[Z.to_nat snp_id :=
                   (Z.lor (get0 snp_repr) low_bits, Z.lor (get1 snp_repr) high_bits,
                    get2 snp_repr)]> snps1 ∧
    length (snps_known_bits st') = length known1 ∧
    kmer_index st' = kmer_index st ++ [kmer_repr snp_id offset].
Proof.
  unfold build_snp. intros H.
  destruct (snps_map st !! Z.shiftr snp_with_offset 8) as [snp_id|] eqn:Hm.
  all: inv_assert H; inv_assert H; inv_bind H; inv_bind H; inv_assert H; inv_assert H;
       inv_assert H; injection H as <-; cbn [mmer_bloom lmer_index snps snps_map
                                              snps_known_bits kmer_index].
  all: apply andb_prop in Hassert as [[Ho1%Z.leb_le Ho2%Z.ltb_lt]%andb_prop _].
  all: apply Z.ltb_lt in Hassert0.
  all: split; [reflexivity|]; split; [reflexivity|]; split; [unfold K in *; lia|].
  all: eexists _, _, _, _, _.
  all: split; [first [left; repeat split; reflexivity | right; repeat split; reflexivity]|].
  all: split; [exact Hassert0|].
  all: split; [exact Ha|]; split; [exact Ha0|].
  all: split; [reflexivity|]; split; [by rewrite length_insert|reflexivity].
Qed.

Lemma build_body_parts (P : Params) (end_ : Z) (record : Z * Z) (st st' : Build) :
  build_body P end_ record st = Ok st' →
  ∃ s1 s2,
    (if recompute_mmer_bloom P then build_bloom P record.2 st = Ok s1 else s1 = st) ∧
    (if recompute_kmer_index_and_snps P then build_snp record.2 record.1 s1 = Ok s2
     else s2 = s1) ∧
    build_lmer P end_ (Z.shiftr record.2 (p_M2 P)) s2 = Ok st'.
Proof.
  unfold build_body. intros H. inv_bind H. inv_bind H.
  exists a, a0. split; [|split; [|exact H]].
  - destruct (recompute_mmer_bloom P); [exact Ha|by injection Ha].
  - destruct (recompute_kmer_index_and_snps P); [exact Ha0|by injection Ha0].
Qed.

Lemma turns_left_done (end_ : Z) : LOOP_BOUND <= end_ → turns_left end_ = 0%nat.
Proof.
  intros H. unfold turns_left.
  assert ((LOOP_BOUND - end_ + 1) / 2 < 1); [|lia].
  apply Z.div_lt_upper_bound; lia.
Qed.

(** Induction over the turns of the first loop: what holds of the records
    seen so far and the state, and is kept by the body, holds at the end of
    the records the loop visits. *)
Lemma build_loop_visits (P : Params) (R : DB → Build → Prop) :
  (∀ seen end_ record s s',
     R seen s → build_body P end_ record s = Ok s' → R (seen ++ [record]) s') →
  ∀ db end_ seen st st',
    R seen st → build_loop P db end_ st = Ok st' → R (seen ++ visited db end_) st'.
Proof.
  intros Hstep db. unfold visited.
  induction db as [|record db IH]; intros end_ seen st st' HR; simpl.
  - destruct (end_ <? LOOP_BOUND); [discriminate|]. intros [= <-].
    by rewrite take_nil, app_nil_r.
  - destruct (Z.ltb_spec end_ LOOP_BOUND) as [Hlt|Hge].
    + intros H. inv_bind H. rewrite turns_left_step by exact Hlt. simpl.
      rewrite cons_middle, app_assoc. eapply IH; [|exact H]. by eapply Hstep.
    + intros [= <-]. rewrite turns_left_done by exact Hge. simpl. by rewrite app_nil_r.
Qed.

(** ** DB optimizer: the bloom table *)

Lemma build_bloom_bits (P : Params) (kmer : Z) (st st' : Build) :
  build_bloom P kmer st = Ok st' →
  ∀ i, bloom_bit (mmer_bloom st') i
       = bloom_bit (mmer_bloom st) i || (i =? Z.land kmer (MAX_BLOOM P)).
Proof.
  unfold build_bloom. intros H i.
  set (i0 := Z.land kmer (MAX_BLOOM P)) in *.
  inv_bind H. inv_bind H. injection H as <-. cbn [mmer_bloom].
  unfold t_read in Ha. unfold t_write in Ha0.
  destruct ((0 <=? i0 / 64) && (i0 / 64 <? t_len (mmer_bloom st))) eqn:Hr; [|discriminate].
  injection Ha as <-. injection Ha0 as <-.
  unfold bloom_bit, t_read. cbn [t_len t_cells].
  pose proof (Z.div_mod i 64 ltac:(lia)) as Hi.
  pose proof (Z.div_mod i0 64 ltac:(lia)) as Hi0.
  pose proof (Z.mod_pos_bound i0 64 ltac:(lia)) as Hm0.
  destruct (Z.eq_dec (i / 64) (i0 / 64)) as [He|Hne].
  - rewrite He, Hr, lookup_insert_eq. cbn [default]. unfold id.
    rewrite Z.lor_spec. f_equal.
    assert (Hs : shl64 1 (i0 mod 64) = 2 ^ (i0 mod 64)).
    { unfold shl64. rewrite Z.shiftl_mul_pow2, Z.mul_1_l by lia.
      apply wrap64_small. split; [apply Z.pow_nonneg; lia|].
      apply Z.pow_lt_mono_r; lia. }
    rewrite Hs, Z.pow2_bits_eqb by lia.
    destruct (Z.eqb_spec (i0 mod 64) (i mod 64)), (Z.eqb_spec i i0); try reflexivity; lia.
  - destruct ((0 <=? i / 64) && (i / 64 <? t_len (mmer_bloom st)));
      [|destruct (Z.eqb_spec i i0); [subst; contradiction|reflexivity]].
    rewrite lookup_insert_ne by congruence.
    destruct (Z.eqb_spec i i0); [subst; contradiction|]. by rewrite orb_false_r.
Qed.

Lemma build_body_bloom_bits (P : Params) (end_ : Z) (record : Z * Z) (st st' : Build) :
  recompute_mmer_bloom P = true →
  build_body P end_ record st = Ok st' →
  ∀ i, bloom_bit (mmer_bloom st') i
       = bloom_bit (mmer_bloom st) i || (i =? Z.land record.2 (MAX_BLOOM P)).
Proof.
  intros HP H i. apply build_body_parts in H as (s1 & s2 & H1 & H2 & H3).
  rewrite HP in H1. apply build_lmer_frame in H3 as (_ & _ & -> & _).
  assert (mmer_bloom s2 = mmer_bloom s1) as ->.
  { destruct (recompute_kmer_index_and_snps P); [|by subst].
    by apply build_snp_cases in H2 as (? & _). }
  by apply build_bloom_bits.
Qed.

(** X13.  The bloom table is exact for the records the first loop visits:
    starting from a zeroed table, a bit is set afterwards exactly when it
    is the bit [kmer & MAX_BLOOM] of a visited record.  No visited kmer is
    missing, and no other bit is set. *)
Theorem build_loop_bloom_exact (P : Params) (db : DB) (end_ : Z) (st st' : Build) :
  recompute_mmer_bloom P = true → t_cells (mmer_bloom st) = ∅ →
  build_loop P db end_ st = Ok st' →
  ∀ i, bloom_bit (mmer_bloom st') i = true ↔
       ∃ record, record ∈ visited db end_ ∧ i = Z.land record.2 (MAX_BLOOM P).
Proof.
  intros HP Hempty H.
  pose proof (build_loop_visits P
    (λ seen s, ∀ i, bloom_bit (mmer_bloom s) i = true ↔
                    ∃ record, record ∈ seen ∧ i = Z.land record.2 (MAX_BLOOM P))) as Hind.
  assert (Hstep : ∀ seen e record s s',
    (∀ i, bloom_bit (mmer_bloom s) i = true ↔
          ∃ r, r ∈ seen ∧ i = Z.land r.2 (MAX_BLOOM P)) →
    build_body P e record s = Ok s' →
    ∀ i, bloom_bit (mmer_bloom s') i = true ↔
         ∃ r, r ∈ seen ++ [record] ∧ i = Z.land r.2 (MAX_BLOOM P)).
  { intros seen e record s s' IH Hb i.
    rewrite (build_body_bloom_bits P e record s s' HP Hb i).
    rewrite orb_true_iff, IH, Z.eqb_eq. split.
    + intros [(r & Hr & ->)| ->].
      * exists r. split; [apply elem_of_app; by left|reflexivity].
      * exists record. split; [|reflexivity].
        apply elem_of_app. right. by apply list_elem_of_singleton.
    + intros (r & [Hr| ->%list_elem_of_singleton]%elem_of_app & ->); [left; eauto|by right]. }
  assert (Hinit : ∀ i, bloom_bit (mmer_bloom st) i = true ↔
                       ∃ r, r ∈ ([] : DB) ∧ i = Z.land r.2 (MAX_BLOOM P)).
  { intros i. unfold bloom_bit, t_read. rewrite Hempty, lookup_empty.
    destruct (_ && _); simpl; [rewrite Z.bits_0|];
      (split; [discriminate|intros (r & Hr%elem_of_nil & _); done]). }
  exact (Hind Hstep db end_ [] st st' Hinit H).
Qed.

Lemma build_loop_bloom_exact_witness :
  build_loop params_30_36 last_records (LOOP_BOUND - 4) (fresh_build params_30_36)
  = Ok index_last ∧
  ∀ i, bloom_bit (mmer_bloom index_last) i = true ↔
       ∃ record, record ∈ visited last_records (LOOP_BOUND - 4) ∧
                 i = Z.land record.2 (MAX_BLOOM params_30_36).
Proof.
  split; [vm_compute; reflexivity|].
  apply (build_loop_bloom_exact params_30_36 last_records (LOOP_BOUND - 4)
           (fresh_build params_30_36) index_last);
    [reflexivity|reflexivity|vm_compute; reflexivity].
Defined.

(** ** DB optimizer: the table of SNPs *)

Lemma read_Ok_inv {A} (l : list A) (i : Z) (a : A) :
  read l i = Ok a → 0 <= i ∧ l !! Z.to_nat i = Some a.
Proof.
  unfold read. destruct (Z.ltb_spec i 0); [discriminate|].
  destruct (l !! Z.to_nat i); [|discriminate]. intros [= ->]. split; [lia|reflexivity].
Qed.

Lemma coords_insert (l : list SNPRepr) (n : nat) (r r' : SNPRepr) :
  l !! n = Some r → get2 r' = get2 r → get2 <$> <[n := r']> l = get2 <$> l.
Proof.
  intros Hl Hg. rewrite list_fmap_insert, Hg. apply list_insert_id.
  by rewrite list_lookup_fmap, Hl.
Qed.

Lemma build_snp_coords (kmer snp_with_offset : Z) (st st' : Build) :
  snps_indexed st → build_snp kmer snp_with_offset st = Ok st' →
  snps_indexed st' ∧
  Z.shiftr snp_with_offset 8 ∈ get2 <$> snps st' ∧
  ∃ more, get2 <$> snps st' = (get2 <$> snps st) ++ more.
Proof.
  intros (Hlen & Hk & Hsz & Hiff) H.
  apply build_snp_cases in H
    as (_ & _ & _ & snp_id & snps1 & known1 & snp_repr & known & Hcase & Hid
        & Hr & Hrk & Hs & Hkl & _).
  set (snp := Z.shiftr snp_with_offset 8) in *.
  apply read_Ok_inv in Hr as [Hid0 Hr].
  assert (Hcol : get2 <$> snps st' = get2 <$> snps1).
  { rewrite Hs. by eapply coords_insert. }
  assert (Hl' : length (snps st') = length snps1) by (rewrite Hs; apply length_insert).
  destruct Hcase as [(Hm & Hm' & -> & ->)|(Hm & -> & Hm' & -> & ->)].
  - split; [|split].
    + unfold snps_indexed. rewrite Hm', Hcol, Hl', Hkl. done.
    + rewrite Hcol. apply Hiff in Hm as [_ Hm]. by eapply list_elem_of_lookup_2.
    + exists []. by rewrite app_nil_r.
  - assert (Hw : wrap32 (Z.of_nat (size (snps_map st))) = Z.of_nat (size (snps_map st))).
    { unfold wrap32. apply Z.mod_small. lia. }
    rewrite Hw in *.
    assert (Hlc : length (get2 <$> snps st) = size (snps_map st)) by by rewrite length_fmap.
    rewrite fmap_app in Hcol. simpl in Hcol.
    split; [|split].
    + unfold snps_indexed. rewrite Hm', Hcol, Hl', Hkl, !length_app. simpl.
      rewrite map_size_insert_None by exact Hm.
      split; [lia|]. split; [lia|]. split; [lia|].
      intros coord id. destruct (decide (snp = coord)) as [<-|Hne].
      * rewrite lookup_insert_eq. split.
        -- intros [= <-]. split; [lia|].
           rewrite Nat2Z.id, lookup_app_r by lia. by rewrite Hlc, Nat.sub_diag.
        -- intros [H0 Hl]. f_equal.
           destruct (decide (Z.to_nat id < size (snps_map st))%nat) as [Hlt|Hge].
           ++ rewrite lookup_app_l in Hl by lia.
              assert (snps_map st !! snp = Some id) by (apply Hiff; auto). congruence.
           ++ assert (Z.to_nat id < length ((get2 <$> snps st) ++ [snp]))%nat
                by (eapply lookup_lt_Some; exact Hl).
              rewrite length_app in *. simpl in *. lia.
      * rewrite lookup_insert_ne by exact Hne. rewrite Hiff.
        split; intros [H0 Hl]; (split; [exact H0|]).
        -- rewrite lookup_app_l; [exact Hl|]. by eapply lookup_lt_Some.
        -- destruct (decide (Z.to_nat id < size (snps_map st))%nat) as [Hlt|Hge].
           ++ by rewrite lookup_app_l in Hl by lia.
           ++ rewrite lookup_app_r in Hl by lia.
              destruct (Z.to_nat id - length (get2 <$> snps st))%nat as [|k];
                simpl in Hl; [congruence|]. by rewrite ?lookup_nil in Hl.
    + rewrite Hcol. apply elem_of_app. right. by apply list_elem_of_singleton.
    + exists [snp]. exact Hcol.
Qed.

Lemma build_body_coords (P : Params) (end_ : Z) (record : Z * Z) (st st' : Build) :
  snps_indexed st → build_body P end_ record st = Ok st' →
  snps_indexed st' ∧
  (recompute_kmer_index_and_snps P = true → Z.shiftr record.1 8 ∈ get2 <$> snps st') ∧
  ∃ more, get2 <$> snps st' = (get2 <$> snps st) ++ more.
Proof.
  intros Hi H. apply build_body_parts in H as (s1 & s2 & H1 & H2 & H3).
  apply build_lmer_frame in H3 as (Hs3 & _ & _ & Hm3 & Hk3).
  assert (Hs1 : snps s1 = snps st ∧ snps_map s1 = snps_map st
                ∧ snps_known_bits s1 = snps_known_bits st).
  { destruct (recompute_mmer_bloom P); [|by subst].
    apply build_bloom_frame in H1 as (? & _ & _ & ? & ?). done. }
  destruct Hs1 as (Hs1 & Hm1 & Hk1).
  assert (Hi1 : snps_indexed s1).
  { unfold snps_indexed. by rewrite Hs1, Hm1, Hk1. }
  unfold snps_indexed. rewrite Hs3, Hm3, Hk3, <- Hs1.
  destruct (recompute_kmer_index_and_snps P).
  - destruct (build_snp_coords _ _ _ _ Hi1 H2) as (Hi2 & Hin & Hmore). done.
  - subst s2. split; [exact Hi1|]. split; [done|]. exists []. by rewrite app_nil_r.
Qed.

Lemma snps_indexed_NoDup (st : Build) : snps_indexed st → NoDup (get2 <$> snps st).
Proof.
  intros (_ & _ & _ & Hiff). apply NoDup_alt. intros i j coord Hi Hj.
  assert (Hi' : snps_map st !! coord = Some (Z.of_nat i))
    by (apply Hiff; split; [lia|by rewrite Nat2Z.id]).
  assert (Hj' : snps_map st !! coord = Some (Z.of_nat j))
    by (apply Hiff; split; [lia|by rewrite Nat2Z.id]).
  rewrite Hi' in Hj'. injection Hj' as Hij. lia.
Qed.

(** X14.  The ids of the SNPs after the first loop, for stores that came
    back empty: [snps] has one record for every key of [snps_map], so the
    assertion of line 739 holds; no coordinate is listed twice; the map
    sends a coordinate to the place of its record, and only there; and
    when the SNPs are built, the coordinate of every visited record is
    listed. *)
Theorem build_loop_snps_indexed (P : Params) (db : DB) (end_ : Z) (st st' : Build) :
  snps st = [] → snps_map st = ∅ → snps_known_bits st = [] →
  build_loop P db end_ st = Ok st' →
  length (snps st') = size (snps_map st') ∧
  NoDup (get2 <$> snps st') ∧
  (∀ coord id, snps_map st' !! coord = Some id ↔
               0 <= id ∧ (get2 <$> snps st') !! Z.to_nat id = Some coord) ∧
  (recompute_kmer_index_and_snps P = true →
   ∀ record, record ∈ visited db end_ → Z.shiftr record.1 8 ∈ get2 <$> snps st').
Proof.
  intros Hs Hm Hk H.
  pose proof (build_loop_visits P
    (λ seen s, snps_indexed s ∧
               (recompute_kmer_index_and_snps P = true →
                ∀ record, record ∈ seen → Z.shiftr record.1 8 ∈ get2 <$> snps s))) as Hind.
  destruct (Hind) with (db := db) (end_ := end_) (seen := ([] : DB)) (st := st) (st' := st')
    as [Hi Hcov].
  - clear. intros seen e record s s' [Hi Hcov] Hb.
    destruct (build_body_coords P e record s s' Hi Hb) as (Hi' & Hin & more & Hmore).
    split; [exact Hi'|]. intros HP r [Hr| ->%list_elem_of_singleton]%elem_of_app.
    + rewrite Hmore. apply elem_of_app. left. by apply Hcov.
    + by apply Hin.
  - split.
    + unfold snps_indexed. rewrite Hs, Hm, Hk, map_size_empty. simpl.
      split; [reflexivity|]. split; [reflexivity|]. split; [lia|].
      intros coord id. rewrite lookup_empty, lookup_nil. split; [done|]. by intros [_ ?].
    + intros _ r Hr%elem_of_nil. done.
  - exact H.
  - split; [apply Hi|]. split; [by apply snps_indexed_NoDup|].
    split; [apply Hi|exact Hcov].
Qed.

Lemma build_loop_snps_indexed_witness :
  length (snps index_last) = size (snps_map index_last) ∧
  NoDup (get2 <$> snps index_last) ∧
  (∀ coord id, snps_map index_last !! coord = Some id ↔
               0 <= id ∧ (get2 <$> snps index_last) !! Z.to_nat id = Some coord) ∧
  (recompute_kmer_index_and_snps params_30_36 = true →
   ∀ record, record ∈ visited last_records (LOOP_BOUND - 4) →
             Z.shiftr record.1 8 ∈ get2 <$> snps index_last).
Proof.
  apply (build_loop_snps_indexed params_30_36 last_records (LOOP_BOUND - 4)
           (fresh_build params_30_36) index_last);
    [reflexivity|reflexivity|reflexivity|vm_compute; reflexivity].
Defined.

(** ** DB optimizer: the redundant base of every record *)

Lemma build_snp_redundant (kmer snp_with_offset : Z) (st st' : Build) :
  Forall redundant_base_agrees (snps st) →
  build_snp kmer snp_with_offset st = Ok st' →
  Forall redundant_base_agrees (snps st').
Proof.
  intros HF H.
  apply build_snp_cases in H
    as (_ & _ & Ho & snp_id & snps1 & known1 & snp_repr & known & Hcase & _
        & Hr & _ & -> & _).
  apply read_Ok_inv in Hr as [_ Hr].
  assert (HF1 : Forall redundant_base_agrees snps1).
  { destruct Hcase as [(_ & _ & -> & _)|(_ & _ & _ & -> & _)]; [exact HF|].
    apply Forall_app. split; [exact HF|]. constructor; [reflexivity|constructor]. }
  apply Forall_insert; [exact HF1|].
  pose proof (Forall_lookup_1 _ _ _ _ HF1 Hr) as Hrr.
  unfold redundant_base_agrees in *. cbn [get0 get1 fst snd].
  rewrite Z.shiftr_lor, Z.land_lor_distr_l, Hrr, snp_base_twice by exact Ho.
  reflexivity.
Qed.

(** X15.  The base at the SNP is kept twice in every record the build
    makes, in the two top bits of the first half and the two low bits of
    the second, and the two copies agree: the comment of lines 664-667
    holds of every record, whatever kmers were merged into it. *)
Theorem build_loop_redundant_base (P : Params) (db : DB) (end_ : Z) (st st' : Build) :
  Forall redundant_base_agrees (snps st) →
  build_loop P db end_ st = Ok st' →
  Forall redundant_base_agrees (snps st').
Proof.
  intros HF H.
  apply (build_loop_visits P (λ _ s, Forall redundant_base_agrees (snps s)))
    with (db := db) (end_ := end_) (seen := ([] : DB)) (st := st); [|exact HF|exact H].
  clear. intros _ e record s s' HF Hb.
  apply build_body_parts in Hb as (s1 & s2 & H1 & H2 & H3).
  apply build_lmer_frame in H3 as (-> & _).
  assert (Hs1 : snps s1 = snps s).
  { destruct (recompute_mmer_bloom P); [|by subst].
    by apply build_bloom_frame in H1 as (? & _). }
  rewrite <- Hs1 in HF.
  destruct (recompute_kmer_index_and_snps P); [|by subst].
  by eapply build_snp_redundant.
Qed.

Lemma build_loop_redundant_base_witness :
  snps index_last ≠ [] ∧ Forall redundant_base_agrees (snps index_last).
Proof.
  split; [discriminate|].
  apply (build_loop_redundant_base params_30_36 last_records (LOOP_BOUND - 4)
           (fresh_build params_30_36) index_last);
    [constructor|vm_compute; reflexivity].
Defined.

(** ** DB optimizer: what the stores hold before the build *)

Lemma build_body_snps_growth (P : Params) (end_ : Z) (record : Z * Z) (st st' : Build) :
  build_body P end_ record st = Ok st' →
  (length (snps st') + size (snps_map st) = length (snps st) + size (snps_map st'))%nat.
Proof.
  intros Hb. apply build_body_parts in Hb as (s1 & s2 & H1 & H2 & H3).
  apply build_lmer_frame in H3 as (-> & _ & _ & -> & _).
  assert (Hs1 : snps s1 = snps st ∧ snps_map s1 = snps_map st).
  { destruct (recompute_mmer_bloom P); [|by subst].
    apply build_bloom_frame in H1. tauto. }
  destruct Hs1 as [<- <-].
  destruct (recompute_kmer_index_and_snps P); [|by subst].
  apply build_snp_cases in H2
    as (_ & _ & _ & snp_id & snps1 & known1 & snp_repr & known & Hcase & _ & _ & _ & -> & _).
  rewrite length_insert.
  destruct Hcase as [(_ & -> & -> & _)|(Hnone & _ & -> & -> & _)]; [reflexivity|].
  rewrite length_app, map_size_insert_None by exact Hnone. simpl. lia.
Qed.

(** X16.  The first loop appends to [snps] and never clears it: with the
    map empty at the start, as [main] has it, [snps] ends with one record
    more than it began with for every key of the map.  So the assertion of
    line 739, [snps.size() == snps_map.size()], holds after the loop
    exactly when the store handed over an empty vector. *)
Theorem build_loop_snps_growth (P : Params) (db : DB) (end_ : Z) (st st' : Build) :
  snps_map st = ∅ → build_loop P db end_ st = Ok st' →
  length (snps st') = (length (snps st) + size (snps_map st'))%nat ∧
  (length (snps st') = size (snps_map st') ↔ snps st = []).
Proof.
  intros Hm H.
  assert (Hg : length (snps st') = (length (snps st) + size (snps_map st'))%nat).
  { apply (build_loop_visits P
      (λ _ s, length (snps s) = (length (snps st) + size (snps_map s))%nat))
      with (db := db) (end_ := end_) (seen := ([] : DB)) (st := st); [| |exact H].
    - clear. intros _ e record s s' IH Hb. apply build_body_snps_growth in Hb. lia.
    - rewrite Hm, map_size_empty. lia. }
  split; [exact Hg|]. rewrite Hg. split.
  - intros Hl. destruct (snps st); [reflexivity|simpl in Hl; lia].
  - intros ->. reflexivity.
Qed.

Lemma build_loop_snps_growth_witness :
  length (snps index_last) = (length (snps (fresh_build params_30_36))
                              + size (snps_map index_last))%nat ∧
  (length (snps index_last) = size (snps_map index_last)
   ↔ snps (fresh_build params_30_36) = []).
Proof.
  apply (build_loop_snps_growth params_30_36 last_records (LOOP_BOUND - 4));
    [reflexivity|vm_compute; reflexivity].
Defined.

(** ** DB optimizer: the entries of [kmer_index] *)

Lemma build_body_kmer_index (P : Params) (end_ : Z) (record : Z * Z) (st st' : Build) :
  recompute_kmer_index_and_snps P = true →
  build_body P end_ record st = Ok st' →
  ∃ entry, kmer_index st' = kmer_index st ++ [entry] ∧ 0 <= entry <= 1.
Proof.
  intros HP Hb. apply build_body_parts in Hb as (s1 & s2 & H1 & H2 & H3).
  apply build_lmer_frame in H3 as (_ & -> & _).
  assert (Hs1 : kmer_index s1 = kmer_index st).
  { destruct (recompute_mmer_bloom P); [|by subst].
    apply build_bloom_frame in H1. tauto. }
  rewrite HP in H2.
  apply build_snp_cases in H2
    as (_ & _ & _ & snp_id & snps1 & known1 & snp_repr & known & _ & _ & _ & _ & _ & _ & ->).
  rewrite Hs1. eexists. split; [reflexivity|apply kmer_repr_le_1].
Qed.

(** X17.  The first loop appends one entry to [kmer_index] for every record
    it visits, behind whatever the store handed over, and every such entry
    is 0 or 1.  The validation loop looks for the entry of record [end / 2]
    at index [end / 2], which is the right place only when the vector was
    empty before. *)
Theorem build_loop_kmer_index (P : Params) (db : DB) (end_ : Z) (st st' : Build) :
  recompute_kmer_index_and_snps P = true →
  build_loop P db end_ st = Ok st' →
  ∃ entries, kmer_index st' = kmer_index st ++ entries ∧
             length entries = length (visited db end_) ∧
             Forall (λ entry, 0 <= entry <= 1) entries.
Proof.
  intros HP H.
  pose proof (build_loop_visits P
    (λ seen s, ∃ entries, kmer_index s = kmer_index st ++ entries ∧
                          length entries = length seen ∧
                          Forall (λ entry, 0 <= entry <= 1) entries)) as Hind.
  apply (Hind) with (db := db) (end_ := end_) (seen := ([] : DB)) (st := st); [| |exact H].
  - clear -HP. intros seen e record s s' (entries & He & Hl & HF) Hb.
    apply build_body_kmer_index in Hb as (entry & -> & Hentry); [|exact HP].
    exists (entries ++ [entry]). rewrite He, <- app_assoc, !length_app, Hl.
    split; [reflexivity|]. split; [reflexivity|].
    apply Forall_app. split; [exact HF|]. by constructor.
  - exists []. rewrite app_nil_r. split; [reflexivity|]. split; [reflexivity|constructor].
Qed.

Lemma build_loop_kmer_index_witness :
  ∃ entries, kmer_index index_last = kmer_index (fresh_build params_30_36) ++ entries ∧
             length entries = length (visited last_records (LOOP_BOUND - 4)) ∧
             Forall (λ entry, 0 <= entry <= 1) entries.
Proof.
  apply (build_loop_kmer_index params_30_36 last_records (LOOP_BOUND - 4));
    [reflexivity|vm_compute; reflexivity].
Defined.

(** ** DB optimizer and scanner: the range of an lmer *)




(** ** Scanner: the end of the input *)

Section scanner_input.
Variables M2 M3 : Z.
Variables lmer_index mmer_bloom : Table.
Variable kmers_index : list Z.
Variable snps : list SNPRepr.

Local Abbreviation scan_chars := (scan_chars M2 M3 lmer_index mmer_bloom kmers_index snps).
Local Abbreviation read_loop := (read_loop M2 M3 lmer_index mmer_bloom kmers_index snps).

Lemma read_loop_app (ws : list (list Z)) (rest : list read_result) (st : Scan) :
  Forall (λ w, w ≠ []) ws →
  read_loop ((Bytes <$> ws) ++ rest) st
  = (st' ← scan_chars (concat ws) st; read_loop rest st').
Proof.
  revert st. induction ws as [|w ws IH]; intros st HF; simpl; [reflexivity|].
  apply Forall_cons in HF as [Hw HF].
  rewrite bool_decide_eq_false_2 by exact Hw.
  rewrite scan_chars_app.
  destruct (scan_chars w st); simpl; [by apply IH|reflexivity].
Qed.

(** X19.  The reading stops at the first [read] that returns 0 or fails,
    and nothing that a later [read] would deliver is looked at.  After a
    return of 0 the result is the scan of the bytes before it; after a
    failure the run ends with exit status 1, unless the scan of the bytes
    before it had failed already, and no output is written. *)
Theorem read_loop_until_eof (ws : list (list Z)) (rest : list read_result) (st : Scan) :
  Forall (λ w, w ≠ []) ws →
  read_loop ((Bytes <$> ws) ++ Bytes [] :: rest) st = scan_chars (concat ws) st ∧
  read_loop ((Bytes <$> ws) ++ ReadFailed :: rest) st
  = (_ ← scan_chars (concat ws) st;
     Err (Exit 1 "unknown fatal error, when read stdin input")) ∧
  ∀ out, kmer_lookup_work M2 M3 lmer_index mmer_bloom kmers_index snps M2 M3
           ((Bytes <$> ws) ++ ReadFailed :: rest) ≠ Ok (Some out).
Proof.
  intros HF. rewrite !read_loop_app by exact HF. simpl.
  split; [by destruct (scan_chars _ _)|]. split; [reflexivity|].
  intros out. unfold kmer_lookup_work. destruct (negb _); [discriminate|].
  rewrite read_loop_app by exact HF.
  destruct (scan_chars _ _); simpl; discriminate.
Qed.

End scanner_input.

Lemma read_loop_until_eof_witness :
  read_loop 32 36 (lmer_index index_AAAC) (mmer_bloom index_AAAC) (kmer_index index_AAAC)
    (snps index_AAAC) ((Bytes <$> [lines ["@r"%string]]) ++ Bytes [] :: [Bytes line_AAAC])
    scan_init
  = scan_chars 32 36 (lmer_index index_AAAC) (mmer_bloom index_AAAC)
      (kmer_index index_AAAC) (snps index_AAAC) (concat [lines ["@r"%string]]) scan_init.
Proof.
  apply (read_loop_until_eof 32 36 (lmer_index index_AAAC) (mmer_bloom index_AAAC)
           (kmer_index index_AAAC) (snps index_AAAC) [lines ["@r"%string]]
           [Bytes line_AAAC] scan_init).
  by repeat constructor.
Defined.

(** ** The codec of the earlier version *)

Lemma assign_Ok_inv {A} (l l' : list A) (i : Z) (a : A) :
  assign l i a = Ok l' →
  length l' = length l ∧ 0 <= i ∧ l' !! Z.to_nat i = Some a ∧
  ∀ j, j ≠ Z.to_nat i → l' !! j = l !! j.
Proof.
  unfold assign. destruct (Z.leb_spec 0 i); [|discriminate].
  destruct (Z.ltb_spec i (Z.of_nat (length l))); [|discriminate].
  intros [= <-]. rewrite length_insert. split; [reflexivity|]. split; [assumption|].
  split; [apply list_lookup_insert_eq; lia|].
  intros j Hj. by apply list_lookup_insert_ne.
Qed.

Lemma set_code_Ok_inv (c : string) (b : Z) (code_dict code_dict' : list Z) :
  part_000.bit_encode (chr c) = Ok b →
  part_000.set_code c code_dict = Ok code_dict' →
  code_dict' !! Z.to_nat (chr c) = Some b ∧
  ∀ j, j ≠ Z.to_nat (chr c) → code_dict' !! j = code_dict !! j.
Proof.
  unfold part_000.set_code. intros -> H. simpl in H.
  apply assign_Ok_inv in H as (_ & _ & ? & ?). by split.
Qed.

(** After [make_code_dict] the eight letters have their codes, whatever
    the array held. *)
Lemma make_code_dict_codes (init code_dict : list Z) (ch : Z) :
  part_000.make_code_dict init = Ok code_dict → is_base ch = true →
  read code_dict ch = Ok (code_dict_entry ch).
Proof.
  unfold part_000.make_code_dict. intros H Hb.
  inv_bind H. inv_bind H. inv_bind H. inv_bind H. inv_bind H. inv_bind H. inv_bind H.
  apply (set_code_Ok_inv "A" 0) in Ha as [HA _]; [|reflexivity].
  apply (set_code_Ok_inv "a" 0) in Ha0 as [Ha0 Ha0']; [|reflexivity].
  apply (set_code_Ok_inv "C" 1) in Ha1 as [Ha1 Ha1']; [|reflexivity].
  apply (set_code_Ok_inv "c" 1) in Ha2 as [Ha2 Ha2']; [|reflexivity].
  apply (set_code_Ok_inv "G" 2) in Ha3 as [Ha3 Ha3']; [|reflexivity].
  apply (set_code_Ok_inv "g" 2) in Ha4 as [Ha4 Ha4']; [|reflexivity].
  apply (set_code_Ok_inv "T" 3) in Ha5 as [Ha5 Ha5']; [|reflexivity].
  apply (set_code_Ok_inv "t" 3) in H as [H H']; [|reflexivity].
  unfold is_base in Hb. apply bool_decide_eq_true in Hb. vm_compute in Hb.
  change (chr "A") with 65 in *.
  change (chr "a") with 97 in *.
  change (chr "C") with 67 in *.
  change (chr "c") with 99 in *.
  change (chr "G") with 71 in *.
  change (chr "g") with 103 in *.
  change (chr "T") with 84 in *.
  change (chr "t") with 116 in *.
  repeat (apply elem_of_cons in Hb as [->|Hb];
          [unfold read; simpl;
           rewrite ?H', ?Ha5', ?Ha4', ?Ha3', ?Ha2', ?Ha1', ?Ha0' by lia;
           first [rewrite H|rewrite Ha5|rewrite Ha4|rewrite Ha3|rewrite Ha2
                 |rewrite Ha1|rewrite Ha0|rewrite HA]; reflexivity|]).
  by apply elem_of_nil in Hb.
Qed.

Lemma pack_snoc (codes : list Z) (b_code : Z) :
  pack (codes ++ [b_code]) = pack codes + b_code * 4 ^ Z.of_nat (length codes).
Proof.
  induction codes as [|b0 codes IH]; simpl pack; simpl length; [simpl; lia|].
  rewrite IH, Nat2Z.inj_succ, Z.pow_succ_r by lia. ring.
Qed.

Lemma old_seq_encode_from_pack (code_dict buf : list Z) (n : nat) (seq_code : Z) :
  (∀ ch, is_base ch = true → read code_dict ch = Ok (code_dict_entry ch)) →
  (n ≤ 32)%nat → (n ≤ length buf)%nat →
  Forall (λ ch, is_base ch = true) (take n buf) →
  0 <= seq_code < 2 ^ 64 → seq_code mod 4 ^ Z.of_nat n = 0 →
  part_000.seq_encode_from code_dict buf (2 * (Z.of_nat n - 1)) seq_code
  = Ok (seq_code + pack (reverse (code_dict_entry <$> take n buf))).
Proof.
  intros Hcd. revert buf seq_code.
  induction n as [|m IH]; intros buf acc Hn Hl HF Ha Hm.
  - destruct buf; simpl; f_equal; lia.
  - destruct buf as [|ch buf]; [simpl in Hl; lia|].
    simpl in Hl. rewrite firstn_cons in HF. apply Forall_cons in HF as [Hch HF].
    cbn [part_000.seq_encode_from].
    destruct (Z.leb_spec 0 (2 * (Z.of_nat (S m) - 1))) as [_|?]; [|lia].
    rewrite (Hcd ch Hch). cbn [mbind res_bind].
    destruct (is_base_code ch Hch) as [_ Hr].
    set (b := code_dict_entry ch) in *.
    assert (H4m : 0 < 4 ^ Z.of_nat m) by (apply Z.pow_pos_nonneg; lia).
    assert (H4S : 4 ^ Z.of_nat (S m) = 4 * 4 ^ Z.of_nat m).
    { rewrite Nat2Z.inj_succ, Z.pow_succ_r by lia. reflexivity. }
    assert (H4le : 4 ^ Z.of_nat (S m) <= 2 ^ 64).
    { change (2 ^ 64) with (4 ^ 32). apply Z.pow_le_mono_r; lia. }
    assert (H2m : 2 ^ (2 * Z.of_nat m) = 4 ^ Z.of_nat m).
    { rewrite Z.pow_mul_r by lia. reflexivity. }
    apply Z.mod_divide in Hm; [|lia]. destruct Hm as [a Hacc].
    assert (Hs : shl64 b (2 * (Z.of_nat (S m) - 1)) = b * 4 ^ Z.of_nat m).
    { unfold shl64. rewrite Z.shiftl_mul_pow2 by lia.
      replace (2 * (Z.of_nat (S m) - 1)) with (2 * Z.of_nat m) by lia.
      rewrite H2m. apply wrap64_small. nia. }
    rewrite Hs.
    assert (Hlor : Z.lor acc (b * 4 ^ Z.of_nat m) = acc + b * 4 ^ Z.of_nat m).
    { rewrite Z.lor_comm, Hacc, H4S.
      replace (a * (4 * 4 ^ Z.of_nat m)) with (a * 2 ^ (2 * Z.of_nat m + 2))
        by (rewrite Z.pow_add_r, H2m by lia; change (2 ^ 2) with 4; ring).
      rewrite lor_disjoint_add; [apply Z.add_comm|lia| |nia].
      rewrite Z.pow_add_r, H2m by lia. change (2 ^ 2) with 4. nia. }
    rewrite Hlor.
    replace (2 * (Z.of_nat (S m) - 1) - BITS_PER_BASE) with (2 * (Z.of_nat m - 1))
      by (unfold BITS_PER_BASE; lia).
    assert (Hroom : acc + 4 ^ Z.of_nat (S m) <= 2 ^ 64).
    { assert (Hq : 2 ^ 64 = 4 ^ (32 - Z.of_nat (S m)) * 4 ^ Z.of_nat (S m)).
      { rewrite <- Z.pow_add_r by lia. replace (32 - Z.of_nat (S m) + Z.of_nat (S m)) with 32 by lia.
        reflexivity. }
      rewrite Hq in *. rewrite Hacc in *.
      assert (0 < 4 ^ Z.of_nat (S m)) by lia.
      assert (a < 4 ^ (32 - Z.of_nat (S m))) by nia. nia. }
    rewrite IH; [|lia|lia|exact HF|nia|].
    + f_equal. rewrite firstn_cons, fmap_cons, reverse_cons, pack_snoc.
      rewrite length_reverse, length_fmap, length_take, Nat.min_l by lia.
      fold b. lia.
    + rewrite Hacc, H4S.
      replace (a * (4 * 4 ^ Z.of_nat m) + b * 4 ^ Z.of_nat m)
        with ((a * 4 + b) * 4 ^ Z.of_nat m) by ring.
      apply Z.mod_mul. lia.
Qed.

Lemma bit_decode_code (ch : Z) :
  is_base ch = true →
  part_000.bit_decode (code_dict_entry ch) = Ok (upper_case ch).
Proof.
  unfold is_base. intros H%bool_decide_eq_true. vm_compute in H.
  repeat (apply elem_of_cons in H as [->|H]; [reflexivity|]).
  by apply elem_of_nil in H.
Qed.

Lemma old_seq_decode_from_chars (codes : list Z) (chars : list Z) (len : Z) (turns : list Z) :
  (∀ i, i ∈ turns → ∃ k b ch,
      2 * (len - i - 2) = 2 * Z.of_nat k ∧ codes !! k = Some b ∧
      part_000.bit_decode b = Ok ch ∧ chars !! Z.to_nat i = Some ch ∧ 0 <= i) →
  Forall (λ b, 0 <= b <= 3) codes →
  part_000.seq_decode_from turns len (pack codes)
  = Ok ((λ i, default 0 (chars !! Z.to_nat i)) <$> turns).
Proof.
  intros Hturns HF. induction turns as [|i turns IH]; [reflexivity|].
  cbn [part_000.seq_decode_from].
  destruct (Hturns i) as (k & b & ch & Hk & Hb & Hd & Hch & _); [by left|].
  unfold BITS_PER_BASE. rewrite Hk.
  change part_000.B_MASK with 3. rewrite Z.land_comm, (pack_digit codes k b HF Hb), Hd.
  cbn [mbind res_bind]. rewrite IH.
  - cbn [mbind res_bind]. rewrite fmap_cons, Hch. reflexivity.
  - intros j Hj. apply Hturns. by right.
Qed.

(** X20.  The codec of the earlier version is a round trip on sequences
    of up to 32 bases: with the table [make_code_dict] fills, whatever the
    array held before, [seq_encode] packs [len] bases into a code below
    [4^len], the first base highest, and [seq_decode] gives the bases back
    in upper case, closed by a NUL. *)
Theorem old_seq_decode_encode (init code_dict buf : list Z) (len : Z) :
  part_000.make_code_dict init = Ok code_dict →
  0 < len <= 32 → (Z.to_nat len ≤ length buf)%nat →
  Forall (λ ch, is_base ch = true) (take (Z.to_nat len) buf) →
  ∃ seq_code,
    part_000.seq_encode len code_dict buf = Ok seq_code ∧
    0 <= seq_code < 4 ^ len ∧
    part_000.seq_decode (len + 1) seq_code
    = Ok ((upper_case <$> take (Z.to_nat len) buf) ++ [0]).
Proof.
  intros Hmk Hlen Hbuf HF.
  set (n := Z.to_nat len) in *.
  set (codes := reverse (code_dict_entry <$> take n buf)).
  assert (Hcodes : Forall (λ b, 0 <= b <= 3) codes).
  { apply Forall_reverse, Forall_fmap. eapply Forall_impl; [exact HF|].
    intros ch Hch. by apply is_base_code in Hch as [_ ?]. }
  assert (Hlc : length codes = n).
  { unfold codes. rewrite length_reverse, length_fmap, length_take. lia. }
  exists (pack codes). split; [|split].
  - unfold part_000.seq_encode, BITS_PER_BASE.
    replace ((len - 1) * 2) with (2 * (Z.of_nat n - 1)) by lia.
    rewrite (old_seq_encode_from_pack code_dict buf n 0);
      [reflexivity| |lia|exact Hbuf|exact HF|lia|].
    + intros ch Hch. by eapply make_code_dict_codes.
    + apply Z.mod_0_l. apply Z.pow_nonzero; lia.
  - pose proof (pack_bounds codes Hcodes) as Hp. rewrite Hlc in Hp.
    rewrite Z.pow_mul_r in Hp by lia. change (2 ^ 2) with 4 in Hp.
    replace (Z.of_nat n) with len in Hp by lia. exact Hp.
  - unfold part_000.seq_decode. replace (len + 1 - 1) with len by lia.
    rewrite (old_seq_decode_from_chars codes (upper_case <$> take n buf)).
    + cbn [mbind res_bind]. destruct (Z.ltb_spec (len + 1) 1); [lia|].
      do 2 f_equal. apply list_eq. intros i.
      rewrite list_lookup_fmap.
      destruct (decide (i < n)%nat) as [Hi|Hi].
      * rewrite lookup_seqZ_lt by lia. simpl. rewrite Z.add_0_l, Nat2Z.id.
        destruct ((upper_case <$> take n buf) !! i) eqn:He; [reflexivity|].
        apply lookup_ge_None in He. rewrite length_fmap, length_take in He. lia.
      * rewrite lookup_seqZ_ge by lia. simpl. symmetry. apply lookup_ge_None.
        rewrite length_fmap, length_take. lia.
    + intros i [Hi0 Hi]%elem_of_seqZ.
      destruct (lookup_lt_is_Some_2 (take n buf) (Z.to_nat i)) as [ch Hch].
      { rewrite length_take. lia. }
      exists (n - S (Z.to_nat i))%nat, (code_dict_entry ch), (upper_case ch).
      split; [lia|]. split; [|split; [|split; [|lia]]].
      * unfold codes. rewrite reverse_lookup by (rewrite length_fmap, length_take; lia).
        rewrite length_fmap, length_take, Nat.min_l by lia.
        replace (n - S (n - S (Z.to_nat i)))%nat with (Z.to_nat i) by lia.
        by rewrite list_lookup_fmap, Hch.
      * apply bit_decode_code. by eapply Forall_lookup_1 in HF.
      * by rewrite list_lookup_fmap, Hch.
    + exact Hcodes.
Qed.

Lemma old_seq_decode_encode_witness :
  ∃ seq_code,
    part_000.seq_encode 4 code_dict_made (bytes "acgtN") = Ok seq_code ∧
    0 <= seq_code < 4 ^ 4 ∧
    part_000.seq_decode (4 + 1) seq_code
    = Ok ((upper_case <$> take (Z.to_nat 4) (bytes "acgtN")) ++ [0]).
Proof.
  apply (old_seq_decode_encode stack_garbage code_dict_made (bytes "acgtN") 4);
    [reflexivity|lia|vm_compute; lia|vm_compute; by repeat constructor].
Defined.



